(** * Workflow editor: execution order, edge numbering, validation, run control

    A shallow embedding of
      - [webviews/workflow/components/Flow.tsx]: [topologicalEdgeSort],
        [updateEdgeOrder], [edgesWithOrder], [onExecute];
      - [src/workflow/workflow.ts]: the message handler installed by
        [registerWorkflowCommands].

    JavaScript values are modelled as follows.  A [number] that only ever holds
    an integer is a [Z]; a [Map<string, V>] is a [gmap string V]; an array is a
    [list]; [undefined] is [None].  A string that the code only stores, copies
    and compares (ids, labels, results, messages) is a [string]; the prompt,
    which the code trims, is the list of its UTF-16 code units ([Js.text]). *)

From Stdlib Require Import ZArith Lia Ascii.
From stdpp Require Import base option list gmap strings fin_maps sorting relations.

Local Open Scope Z_scope.

(** ** JavaScript library functions used by the source *)

Module Js.

(** [x || 0] where [x] is the result of [Map.prototype.get] on a map of
    numbers: [undefined] and [0] both give [0]. *)
Definition or0 (x : option Z) : Z :=
  match x with
  | Some v => if decide (v = 0) then 0 else v
  | None => 0
  end.

(** [Array.prototype.findIndex]: the first index whose element satisfies
    the predicate, [-1] when there is none. *)
Definition findIndex {A} (P : A → Prop) `{∀ x, Decision (P x)} (l : list A) : Z :=
  match list_find P l with
  | Some (i, _) => Z.of_nat i
  | None => -1
  end.

(** [Array.prototype.find]: the first element satisfying the predicate. *)
Definition find {A} (P : A → Prop) `{∀ x, Decision (P x)} (l : list A) : option A :=
  snd <$> list_find P l.

(** [Array.prototype.sort] with a comparator.  The language only fixes the
    result for a consistent comparator: a stable sort.  [sort] below is a
    stable insertion sort, [sort_forward] another one; [sort_conforms]
    states what every conforming engine guarantees for a comparator of the
    shape [key a - key b]. *)
Fixpoint sort_insert {A} (cmp : A → A → Z) (x : A) (l : list A) : list A :=
  match l with
  | [] => [x]
  | y :: r => if decide (cmp x y ≤ 0) then x :: l else y :: sort_insert cmp x r
  end.

Definition sort {A} (cmp : A → A → Z) (l : list A) : list A :=
  foldr (sort_insert cmp) [] l.

(** The insertion sort engines run on short arrays: each element in turn
    is moved left past the elements greater than it. *)
Fixpoint sort_move_left {A} (cmp : A → A → Z) (x : A) (l : list A) : list A :=
  match l with
  | [] => [x]
  | y :: r => if decide (cmp x y < 0) then x :: l else y :: sort_move_left cmp x r
  end.

Definition sort_forward {A} (cmp : A → A → Z) (l : list A) : list A :=
  foldl (λ sorted x, sort_move_left cmp x sorted) [] l.

Definition sort_conforms {A} (srt : (A → A → Z) → list A → list A) : Prop :=
  ∀ (key : A → Z) (l : list A),
    StronglySorted (λ a b, key a ≤ key b) (srt (λ a b, key a - key b) l) ∧
    ∀ k, filter (λ a, key a = k) (srt (λ a b, key a - key b) l)
         = filter (λ a, key a = k) l.

(** A string whose characters the program looks at: the sequence of its
    UTF-16 code units, which is what [String.prototype.trim] works on. *)
Definition code_unit := N.
Definition text := list code_unit.

(** The code units of a literal of this file (all below 256). *)
Fixpoint units (s : string) : text :=
  match s with
  | EmptyString => []
  | String c r => N_of_ascii c :: units r
  end.

(** The code units [String.prototype.trim] strips, ECMA-262's WhiteSpace
    and LineTerminator: TAB, VT, FF, ZERO WIDTH NO-BREAK SPACE, the space
    separators (SPACE, NO-BREAK SPACE, U+1680, U+2000 to U+200A, U+202F,
    U+205F, U+3000), and LF, CR, LINE SEPARATOR, PARAGRAPH SEPARATOR. *)
Definition white_space : list code_unit :=
  [0x0009; 0x000B; 0x000C; 0xFEFF;
   0x0020; 0x00A0; 0x1680;
   0x2000; 0x2001; 0x2002; 0x2003; 0x2004; 0x2005; 0x2006; 0x2007; 0x2008;
   0x2009; 0x200A;
   0x202F; 0x205F; 0x3000;
   0x000A; 0x000D; 0x2028; 0x2029]%N.

Definition is_white_space (c : code_unit) : bool :=
  existsb (N.eqb c) white_space.

Fixpoint trimStart (s : text) : text :=
  match s with
  | [] => []
  | c :: r => if is_white_space c then trimStart r else s
  end.

Definition trim (s : text) : text :=
  rev (trimStart (rev (trimStart s))).

End Js.

(** ** Data model

    The types are declared in [nodes/Nodes.ts], [CustomOrderedEdge.tsx] and
    [services/WorkflowProtocol.ts], which the two source files import. *)

(** Modelled from the spec: the node kinds of [nodes/Nodes.ts], the spec's
    Command, Generate, Preview and StaticInput, under the names Flow.tsx
    gives them ([NodeType.CLI], [NodeType.LLM], [NodeType.PREVIEW],
    [NodeType.INPUT]). *)
Inductive NodeType := CLI | LLM | PREVIEW | INPUT.

Global Instance NodeType_eq_dec : EqDecision NodeType.
Proof. solve_decision. Defined.

(** Modelled from the spec: the kind-specific payload of a node
    ([nodes/Nodes.ts]), with the fields Flow.tsx reads: the label and the
    command text, prompt text and literal content, each of which may be
    undefined.  The prompt is the one text whose characters the code looks
    at (it is trimmed): it is held as its code units.  The other texts are
    only stored, copied and compared. *)
Record NodeData := mkNodeData {
  label : string;
  command : option string;
  prompt : option Js.text;
  content : option string;
}.

Module WorkflowNode.
(** Modelled from the spec: the node [{ id, kind, label, payload }] of
    [nodes/Nodes.ts], as Flow.tsx reads it: [node.id], [node.type],
    [node.data]. *)
Record t := mk { id : string; type : NodeType; data : NodeData }.
End WorkflowNode.

Module Edge.
(** Modelled from the spec: the edge [{ id, source, target }] of
    [CustomOrderedEdge.tsx]. *)
Record t := mk { id : string; source : string; target : string }.
End Edge.

Global Instance NodeData_eq_dec : EqDecision NodeData.
Proof. solve_decision. Defined.
Global Instance WorkflowNode_eq_dec : EqDecision WorkflowNode.t.
Proof. solve_decision. Defined.
Global Instance Edge_eq_dec : EqDecision Edge.t.
Proof. solve_decision. Defined.

(** ** [topologicalEdgeSort] (Flow.tsx) *)

(** The two maps built before the loop. *)
Record Tables := mkTables {
  graph : gmap string (list string);
  inDegree : gmap string Z;
}.

(** [for (const node of nodes) { graph.set(node.id, []); inDegree.set(node.id, 0) }] *)
Definition init_tables (nodes : list WorkflowNode.t) : Tables :=
  foldl (λ t node,
           {| graph := <[WorkflowNode.id node := []]> (graph t);
              inDegree := <[WorkflowNode.id node := 0]> (inDegree t) |})
        {| graph := ∅; inDegree := ∅ |} nodes.

(** [graph.get(edge.source)?.push(edge.target)] then
    [inDegree.set(edge.target, (inDegree.get(edge.target) || 0) + 1)] *)
Definition add_edge (t : Tables) (edge : Edge.t) : Tables :=
  {| graph := alter (λ targets, targets ++ [Edge.target edge]) (Edge.source edge) (graph t);
     inDegree := <[Edge.target edge := Js.or0 (inDegree t !! Edge.target edge) + 1]> (inDegree t) |}.

Definition build_tables (nodes : list WorkflowNode.t) (edges : list Edge.t) : Tables :=
  foldl add_edge (init_tables nodes) edges.

(** [edges.findIndex(edge => edge.source === a.id)] *)
Definition firstEdgeIndex (edges : list Edge.t) (i : string) : Z :=
  Js.findIndex (λ edge, Edge.source edge = i) edges.

(** The comparator handed to [sourceNodes.sort]. *)
Definition compareSources (edges : list Edge.t) (a b : WorkflowNode.t) : Z :=
  firstEdgeIndex edges (WorkflowNode.id a) - firstEdgeIndex edges (WorkflowNode.id b).

(** The state of the [while] loop: [inDegree], [queue] and [result];
    [graph] is no longer written to. *)
Record LoopState := mkLoop {
  deg : gmap string Z;
  queue : list string;
  result : list string;
}.

(** One turn of [for (const neighbor of neighbors)], on [inDegree] and [queue]. *)
Definition relax (s : gmap string Z * list string) (neighbor : string)
  : gmap string Z * list string :=
  let d := <[neighbor := Js.or0 (s.1 !! neighbor) - 1]> s.1 in
  if decide (d !! neighbor = Some 0) then (d, s.2 ++ [neighbor]) else (d, s.2).

(** One turn of the [while] loop, taken when the queue is not empty. *)
Definition dequeue (g : gmap string (list string)) (nodeId : string)
    (rest : list string) (st : LoopState) : LoopState :=
  let s := match g !! nodeId with
           | Some neighbors => foldl relax (deg st, rest) neighbors
           | None => (deg st, rest)
           end in
  {| deg := s.1; queue := s.2; result := result st ++ [nodeId] |}.

Fixpoint kahn_loop (fuel : nat) (g : gmap string (list string)) (st : LoopState)
  : LoopState :=
  match fuel with
  | O => st
  | S fuel' =>
      match queue st with
      | [] => st
      | nodeId :: rest => kahn_loop fuel' g (dequeue g nodeId rest st)
      end
  end.

Section Sequencer.
(** The engine's [Array.prototype.sort]. *)
Variable srt : (WorkflowNode.t → WorkflowNode.t → Z) → list WorkflowNode.t → list WorkflowNode.t.

(** [sortedSourceNodes.map(node => node.id)]: the queue before the loop. *)
Definition initialQueue_with (nodes : list WorkflowNode.t) (edges : list Edge.t)
  : list string :=
  let t := build_tables nodes edges in
  let sourceNodes := filter (λ node, inDegree t !! WorkflowNode.id node = Some 0) nodes in
  let sortedSourceNodes := srt (compareSources edges) sourceNodes in
  WorkflowNode.id <$> sortedSourceNodes.

(** The ids pushed to [result] by the loop.  The loop body runs at most
    [length nodes + length edges] times: with that much fuel the loop leaves
    through its condition ([final_queue], [resultIds_more_fuel]). *)
Definition resultIds_with (nodes : list WorkflowNode.t) (edges : list Edge.t)
  : list string :=
  let t := build_tables nodes edges in
  result (kahn_loop (length nodes + length edges) (graph t)
            {| deg := inDegree t; queue := initialQueue_with nodes edges; result := [] |}).

(** [result.map(id => nodes.find(node => node.id === id)!).filter(Boolean)] *)
Definition topologicalEdgeSort_with (nodes : list WorkflowNode.t) (edges : list Edge.t)
  : list WorkflowNode.t :=
  omap (λ i, Js.find (λ node, WorkflowNode.id node = i) nodes)
       (resultIds_with nodes edges).

(** ** [updateEdgeOrder] (Flow.tsx) *)

(** [orderMap.set(edge.id, sequentialNumber++)] *)
Definition number_edge (s : gmap string Z * Z) (edge : Edge.t) : gmap string Z * Z :=
  (<[Edge.id edge := s.2]> s.1, s.2 + 1).

(** The body of [for (const node of sortedNodes)]. *)
Definition number_node (edges : list Edge.t) (s : gmap string Z * Z)
    (node : WorkflowNode.t) : gmap string Z * Z :=
  let sourceEdges := filter (λ edge, Edge.source edge = WorkflowNode.id node) edges in
  foldl number_edge s sourceEdges.

(** The map handed to [setEdgeOrder]. *)
Definition updateEdgeOrder_with (nodes : list WorkflowNode.t) (edges : list Edge.t)
  : gmap string Z :=
  let sortedNodes := topologicalEdgeSort_with nodes edges in
  (foldl (number_node edges) (∅, 1) sortedNodes).1.
End Sequencer.

Definition initialQueue := initialQueue_with Js.sort.
Definition resultIds := resultIds_with Js.sort.
Definition topologicalEdgeSort := topologicalEdgeSort_with Js.sort.
Definition updateEdgeOrder := updateEdgeOrder_with Js.sort.

(** ** [edgesWithOrder] (Flow.tsx) *)

Record OrderedEdgeData := mkOrderedEdgeData { orderNumber : Z }.

Record RenderedEdge := mkRenderedEdge {
  rendered_edge : Edge.t;
  rendered_type : string;
  rendered_data : OrderedEdgeData;
}.

Definition edgesWithOrder (edges : list Edge.t) (edgeOrder : gmap string Z)
  : list RenderedEdge :=
  (λ edge, {| rendered_edge := edge;
              rendered_type := "ordered-edge";
              rendered_data := {| orderNumber := Js.or0 (edgeOrder !! Edge.id edge) |} |})
    <$> edges.

(** ** Messages from the webview to the extension host *)

(** Modelled from the spec: the payload [{ nodes, edges }] of a message
    ([services/WorkflowProtocol.ts]); the handler tests both fields for
    presence. *)
Record WorkflowData := mkWorkflowData {
  data_nodes : option (list WorkflowNode.t);
  data_edges : option (list Edge.t);
}.

(** Modelled from the spec: the messages of
    [services/WorkflowProtocol.ts] that the handler of workflow.ts
    distinguishes by their [type]. *)
Inductive WorkflowToExtension :=
  | save_workflow (d : option WorkflowData)
  | load_workflow
  | execute_workflow (d : option WorkflowData)
  | abort_workflow.

(** ** [onExecute] (Flow.tsx) *)

Module Flow.

(** The part of the component's state that [onExecute] reads or sets.  The
    webview's [abortController] holds an object of its own; only whether
    it has been aborted is recorded. *)
Record State := mkState {
  nodes : list WorkflowNode.t;
  edges : list Edge.t;
  nodeErrors : gmap string string;
  abortController : option bool;
}.

(** [!s || s.trim() === ''] for an optional string field. *)
Definition blank (s : option Js.text) : bool :=
  match s with
  | None => true
  | Some s => bool_decide (s = []) || bool_decide (Js.trim s = [])
  end.

(** The predicate of [nodes.filter] at the head of [onExecute]. *)
Definition invalid (node : WorkflowNode.t) : bool :=
  match WorkflowNode.type node with
  | LLM => blank (prompt (WorkflowNode.data node))
  | _ => false
  end.

Definition errorMessage (node : WorkflowNode.t) : string :=
  if decide (WorkflowNode.type node = CLI)
  then "Command field is required"
  else "Prompt field is required".

(** [onExecute]: the next state and the messages posted to the host. *)
Definition onExecute (st : State) : State * list WorkflowToExtension :=
  let invalidNodes := filter (λ node, invalid node = true) (nodes st) in
  if decide (0 < length invalidNodes)%nat then
    let newErrors :=
      foldl (λ m node, <[WorkflowNode.id node := errorMessage node]> m) ∅ invalidNodes in
    ({| nodes := nodes st; edges := edges st;
        nodeErrors := newErrors; abortController := abortController st |}, [])
  else
    ({| nodes := nodes st; edges := edges st;
        nodeErrors := ∅; abortController := Some false |},
     [execute_workflow
        (Some {| data_nodes := Some (nodes st); data_edges := Some (edges st) |})]).

End Flow.

(** ** The message handler of [registerWorkflowCommands] (workflow.ts)

    The handler is an [async] function: a second message is handled while an
    earlier invocation is suspended at its [await].  The model is a
    transition system over the variable [activeAbortController], the heap of
    [AbortController] objects and the pending calls of [executeWorkflow].
    [executeWorkflow], [handleWorkflowSave] and [handleWorkflowLoad] live in
    other files: a call to one of them is an effect, and the moment
    [executeWorkflow] settles is an event of its own, at which the [finally]
    block of that invocation runs. *)

Module Host.

(** A reference to an [AbortController]: its index in the heap. *)
Definition ref := nat.

Record Run := mkRun {
  run_nodes : list WorkflowNode.t;
  run_edges : list Edge.t;
  run_signal : ref;
}.

Record State := mkState {
  activeAbortController : option ref;
  aborted : list bool;          (* the heap: [aborted !! c] is [c.signal.aborted] *)
  running : list Run;           (* calls of [executeWorkflow] not yet settled *)
}.

Definition initial : State :=
  {| activeAbortController := None; aborted := []; running := [] |}.

Inductive Event :=
  | Receive (msg : WorkflowToExtension)
  | Settle (c : ref)
  | Dispose.

Inductive Effect :=
  | CallSave (d : option WorkflowData)
  | CallLoad
  | CallExecute (r : Run)
  | CallAbort (c : ref)
  | CallDispose.

(** [message.data?.nodes && message.data?.edges]: both fields present
    (an array is truthy, also when empty). *)
Definition payload (d : option WorkflowData)
  : option (list WorkflowNode.t * list Edge.t) :=
  match d with
  | Some {| data_nodes := Some ns; data_edges := Some es |} => Some (ns, es)
  | _ => None
  end.

Definition handle (st : State) (ev : Event) : State * list Effect :=
  match ev with
  | Receive (save_workflow d) => (st, [CallSave d])
  | Receive load_workflow => (st, [CallLoad])
  | Receive (execute_workflow d) =>
      match payload d with
      | Some (ns, es) =>
          let c := length (aborted st) in
          let r := {| run_nodes := ns; run_edges := es; run_signal := c |} in
          ({| activeAbortController := Some c;
              aborted := aborted st ++ [false];
              running := running st ++ [r] |}, [CallExecute r])
      | None => (st, [])
      end
  | Receive abort_workflow =>
      match activeAbortController st with
      | Some c =>
          ({| activeAbortController := None;
              aborted := <[c := true]> (aborted st);
              running := running st |}, [CallAbort c])
      | None => (st, [])
      end
  | Settle c =>
      if decide (c ∈ run_signal <$> running st) then
        ({| activeAbortController := None;
            aborted := aborted st;
            running := filter (λ r, run_signal r ≠ c) (running st) |}, [])
      else (st, [])
  | Dispose =>
      match activeAbortController st with
      | Some c =>
          ({| activeAbortController := None;
              aborted := <[c := true]> (aborted st);
              running := running st |}, [CallAbort c; CallDispose])
      | None => (st, [CallDispose])
      end
  end.

(** The states and effects of a sequence of events, oldest first. *)
Definition run_events (st : State) (evs : list Event) : State * list Effect :=
  foldl (λ acc ev, let s := handle acc.1 ev in (s.1, acc.2 ++ s.2)) (st, []) evs.

Definition reachable (st : State) : Prop :=
  ∃ evs, (run_events initial evs).1 = st.

(** The runs of [st] whose signal has not been aborted. *)
Definition live (st : State) : list Run :=
  filter (λ r, aborted st !! run_signal r = Some false) (running st).



End Host.

(** ** Vocabulary of the statements *)

Definition nodeIds (nodes : list WorkflowNode.t) : list string :=
  WorkflowNode.id <$> nodes.

Definition outgoing (edges : list Edge.t) (i : string) : list Edge.t :=
  filter (λ e, Edge.source e = i) edges.

Definition incoming (edges : list Edge.t) (i : string) : list Edge.t :=
  filter (λ e, Edge.target e = i) edges.

(** [edge_rel edges s t]: some edge of the list goes from [s] to [t]. *)
Definition edge_rel (edges : list Edge.t) : relation string :=
  λ s t, ∃ e, e ∈ edges ∧ Edge.source e = s ∧ Edge.target e = t.

(** A dependency cycle: a non-empty path of edges from a node to itself. *)
Definition on_cycle (edges : list Edge.t) (x : string) : Prop :=
  tc (edge_rel edges) x x.

Definition acyclic (edges : list Edge.t) : Prop := ∀ x, ¬ on_cycle edges x.

(** Every edge has its two ends among the nodes. *)
Definition endpoints_exist (nodes : list WorkflowNode.t) (edges : list Edge.t) : Prop :=
  ∀ e, e ∈ edges →
    Edge.source e ∈ nodeIds nodes ∧ Edge.target e ∈ nodeIds nodes.

(** The in-degree entry of [x], read the way the source reads it. *)
Definition degOf (d : gmap string Z) (x : string) : Z := Js.or0 (d !! x).

(** How often [x] occurs in a list of neighbours. *)
Definition occ (x : string) (ns : list string) : Z :=
  Z.of_nat (length (filter (λ y, y = x) ns)).

(** The size of the loop's state: the queue and the in-degree entries that
    can still reach zero. *)
Definition positives (d : gmap string Z) : nat :=
  size (filter (λ kv : string * Z, 0 < kv.2) d).

Definition measure (d : gmap string Z) (q : list string) : nat :=
  (length q + positives d)%nat.

(** An edge is processed once its source has been dequeued and has a
    neighbour list ([graph.get] is undefined for an id that is no node). *)
Definition processed (ids done : list string) (e : Edge.t) : Prop :=
  Edge.source e ∈ done ∧ Edge.source e ∈ ids.

(** The edges into [x] that are not processed yet, counted. *)
Definition remaining (ids : list string) (edges : list Edge.t)
    (done : list string) (x : string) : Z :=
  Z.of_nat (length (filter (λ e, Edge.target e = x ∧ ¬ processed ids done e) edges)).

(** [graph.get(s)] after the tables are built, [[]] for [undefined]. *)
Definition neighbours (ids : list string) (edges : list Edge.t) (s : string)
  : list string :=
  if decide (s ∈ ids) then Edge.target <$> outgoing edges s else [].

(** The invariant of the [while] loop. *)
Definition Inv (ids : list string) (edges : list Edge.t) (st : LoopState) : Prop :=
  NoDup (result st ++ queue st) ∧
  (∀ x, degOf (deg st) x = remaining ids edges (result st) x) ∧
  (∀ x, x ∈ result st ++ queue st → degOf (deg st) x = 0) ∧
  (∀ x, x ∈ ids → degOf (deg st) x = 0 → x ∈ result st ++ queue st) ∧
  (∀ e i, e ∈ edges → result st !! i = Some (Edge.target e) →
          ∃ j, (j < i)%nat ∧ result st !! j = Some (Edge.source e)) ∧
  (∀ x, x ∈ result st ++ queue st →
        x ∈ ids ∨ ∃ e, e ∈ edges ∧ Edge.target e = x).

(** A walk along a relation: each element is related to the next one. *)
Inductive walk {A} (R : relation A) : list A → Prop :=
  | walk_one x : walk R [x]
  | walk_cons x y l : R x y → walk R (y :: l) → walk R (x :: y :: l).

(** The edges in the order in which [updateEdgeOrder] meets them: node by
    node along the execution order, each node's outgoing edges as they stand
    in the edge list. *)
Definition numbered_edges (nodes : list WorkflowNode.t) (edges : list Edge.t)
  : list Edge.t :=
  topologicalEdgeSort nodes edges ≫= λ node, outgoing edges (WorkflowNode.id node).

(** ** Sample graphs *)

Definition sample_node (i : string) : WorkflowNode.t :=
  {| WorkflowNode.id := i; WorkflowNode.type := INPUT;
     WorkflowNode.data := {| label := i; command := None; prompt := None;
                             content := Some "" |} |}.

Definition sample_edge (i s t : string) : Edge.t :=
  {| Edge.id := i; Edge.source := s; Edge.target := t |}.

(** The diamond [A→B, A→C, B→D, C→D]. *)
Definition diamond_nodes : list WorkflowNode.t :=
  sample_node <$> ["A"; "B"; "C"; "D"].
Definition diamond_edges : list Edge.t :=
  [sample_edge "e1" "A" "B"; sample_edge "e2" "A" "C";
   sample_edge "e3" "B" "D"; sample_edge "e4" "C" "D"].

(** The cycle [A→B→A]. *)
Definition loop_nodes : list WorkflowNode.t := sample_node <$> ["A"; "B"].
Definition loop_edges : list Edge.t :=
  [sample_edge "e1" "A" "B"; sample_edge "e2" "B" "A"].

(** Two roots, [A] with an edge to [C] and [B] with no edge at all. *)
Definition roots_nodes : list WorkflowNode.t := sample_node <$> ["A"; "B"; "C"].
Definition roots_edges : list Edge.t := [sample_edge "e1" "A" "C"].

(** A command node whose command text is empty. *)
Definition empty_command_node : WorkflowNode.t :=
  {| WorkflowNode.id := "cli-1"; WorkflowNode.type := CLI;
     WorkflowNode.data := {| label := "Run"; command := Some ""; prompt := None;
                             content := None |} |}.

(** A generate node whose prompt is white space only. *)
Definition blank_prompt_node : WorkflowNode.t :=
  {| WorkflowNode.id := "llm-1"; WorkflowNode.type := LLM;
     WorkflowNode.data := {| label := "Ask"; command := None; prompt := Some (Js.units "  ");
                             content := None |} |}.

(** The message that asks to run the diamond. *)
Definition diamond_request : WorkflowToExtension :=
  execute_workflow (Some {| data_nodes := Some diamond_nodes;
                            data_edges := Some diamond_edges |}).

(** The host after that message: one run pending. *)
Definition one_run : Host.State :=
  (Host.handle Host.initial (Host.Receive diamond_request)).1.


(** A rank for the ids of the samples: the position of the letter. *)
Definition sample_rank (i : string) : nat :=
  default 0%nat (fst <$> list_find (λ x, x = i) ["A"; "B"; "C"; "D"]).

(** ** More of Flow.tsx: node edits, rendering state, messages from the host *)

(** Modelled from the spec: the payload of a [node_execution_status] message
    ([services/WorkflowProtocol.ts]): a node event [{ nodeId, status,
    result? }], every field of which the handler treats as optional. *)
Record StatusData := mkStatusData {
  status_nodeId : option string;
  status_status : option string;
  status_result : option string;
}.

(** Modelled from the spec: the messages of [services/WorkflowProtocol.ts]
    that the webview's handler distinguishes by their [type]. *)
Inductive WorkflowFromExtension :=
  | workflow_loaded (d : option (list WorkflowNode.t * list Edge.t))
  | node_execution_status (d : option StatusData)
  | execution_started
  | execution_completed.

Module Editor.

(** [Partial<WorkflowNode['data']>]: a field is absent ([None]) or present
    with its value, which for the three texts may be [undefined]. *)
Record DataPatch := mkDataPatch {
  patch_label : option string;
  patch_command : option (option string);
  patch_prompt : option (option Js.text);
  patch_content : option (option string);
}.

(** [{ ...node.data, ...data }] *)
Definition merge (d : NodeData) (p : DataPatch) : NodeData :=
  {| label := default (label d) (patch_label p);
     command := default (command d) (patch_command p);
     prompt := default (prompt d) (patch_prompt p);
     content := default (content d) (patch_content p) |}.

(** [{ ...node, data: { ...node.data, ...data } }] *)
Definition updatedNode (node : WorkflowNode.t) (p : DataPatch) : WorkflowNode.t :=
  {| WorkflowNode.id := WorkflowNode.id node;
     WorkflowNode.type := WorkflowNode.type node;
     WorkflowNode.data := merge (WorkflowNode.data node) p |}.

(** The callback of [currentNodes.map] in [onNodeUpdate], run over the list
    from its first node on; [sel] is the value last handed to
    [setSelectedNode] (at first the selected node of the closure) and
    [selected_has_id] is [selectedNode?.id === nodeId]. *)
Fixpoint update_nodes (nodeId : string) (p : DataPatch) (selected_has_id : bool)
    (sel : option WorkflowNode.t) (l : list WorkflowNode.t)
  : list WorkflowNode.t * option WorkflowNode.t :=
  match l with
  | [] => ([], sel)
  | node :: r =>
      if decide (WorkflowNode.id node = nodeId) then
        let u := updatedNode node p in
        let out := update_nodes nodeId p selected_has_id
                     (if selected_has_id then Some u else sel) r in
        (u :: out.1, out.2)
      else
        let out := update_nodes nodeId p selected_has_id sel r in
        (node :: out.1, out.2)
  end.

(** [onNodeUpdate(nodeId, data)] on the cells [nodes] and [selectedNode]. *)
Definition onNodeUpdate (nodeId : string) (p : DataPatch)
    (nodes : list WorkflowNode.t) (selectedNode : option WorkflowNode.t)
  : list WorkflowNode.t * option WorkflowNode.t :=
  update_nodes nodeId p
    (bool_decide (WorkflowNode.id <$> selectedNode = Some nodeId))
    selectedNode nodes.

(** One element of [nodesWithState]: the node with [selected] and, in its
    data, [moving], [executing], [error] and [result]. *)
Record RenderedNode := mkRenderedNode {
  rendered_node : WorkflowNode.t;
  selected : bool;
  moving : bool;
  executing : bool;
  error : bool;
  result_text : option string;
}.

(** [nodesWithState], a function of the cells its [useMemo] depends on. *)
Definition nodesWithState (nodes : list WorkflowNode.t)
    (selectedNode : option WorkflowNode.t)
    (movingNodeId executingNodeId : option string)
    (nodeErrors nodeResults : gmap string string) : list RenderedNode :=
  (λ node,
     {| rendered_node := node;
        selected := bool_decide (Some (WorkflowNode.id node) = WorkflowNode.id <$> selectedNode);
        moving := bool_decide (Some (WorkflowNode.id node) = movingNodeId);
        executing := bool_decide (Some (WorkflowNode.id node) = executingNodeId);
        error := bool_decide (is_Some (nodeErrors !! WorkflowNode.id node));
        result_text := nodeResults !! WorkflowNode.id node |}) <$> nodes.

(** The cells the two [message] handlers of the component write. *)
Record State := mkState {
  nodes : list WorkflowNode.t;
  edges : list Edge.t;
  selectedNode : option WorkflowNode.t;
  executingNodeId : option string;
  nodeErrors : gmap string string;
  nodeResults : gmap string string;
  isExecuting : bool;
}.

(** The [node_execution_status] case, for a truthy [nodeId] and [status]. *)
Definition onStatus (st : State) (n s : string) (r : option string) : State :=
  let res := default "" r in
  let st1 :=
    if decide (s = "running") then
      {| nodes := nodes st; edges := edges st; selectedNode := selectedNode st;
         executingNodeId := Some n;
         nodeErrors := delete n (nodeErrors st);
         nodeResults := nodeResults st; isExecuting := isExecuting st |}
    else if decide (s = "error") then
      {| nodes := nodes st; edges := edges st; selectedNode := selectedNode st;
         executingNodeId := None;
         nodeErrors := <[n := res]> (nodeErrors st);
         nodeResults := nodeResults st; isExecuting := isExecuting st |}
    else if decide (s = "completed") then
      let upd :=
        match Js.find (λ node, WorkflowNode.id node = n) (nodes st) with
        | Some node =>
            if decide (WorkflowNode.type node = PREVIEW) then
              onNodeUpdate (WorkflowNode.id node)
                {| patch_label := None; patch_command := None;
                   patch_prompt := None; patch_content := Some r |}
                (nodes st) (selectedNode st)
            else (nodes st, selectedNode st)
        | None => (nodes st, selectedNode st)
        end in
      {| nodes := upd.1; edges := edges st; selectedNode := upd.2;
         executingNodeId := None;
         nodeErrors := nodeErrors st;
         nodeResults := nodeResults st; isExecuting := isExecuting st |}
    else
      {| nodes := nodes st; edges := edges st; selectedNode := selectedNode st;
         executingNodeId := None;
         nodeErrors := nodeErrors st;
         nodeResults := nodeResults st; isExecuting := isExecuting st |} in
  {| nodes := nodes st1; edges := edges st1; selectedNode := selectedNode st1;
     executingNodeId := executingNodeId st1;
     nodeErrors := nodeErrors st1;
     nodeResults := <[n := res]> (nodeResults st1);
     isExecuting := isExecuting st1 |}.

(** The two [messageHandler]s of the component, which are both registered
    for every message. *)
Definition messageHandler (st : State) (msg : WorkflowFromExtension) : State :=
  match msg with
  | workflow_loaded (Some (ns, es)) =>
      {| nodes := ns; edges := es; selectedNode := selectedNode st;
         executingNodeId := executingNodeId st;
         nodeErrors := ∅;
         nodeResults := nodeResults st; isExecuting := isExecuting st |}
  | workflow_loaded None => st
  | node_execution_status
      (Some {| status_nodeId := Some n; status_status := Some s; status_result := r |}) =>
      if decide (n ≠ "" ∧ s ≠ "") then onStatus st n s r else st
  | node_execution_status _ => st
  | execution_started =>
      {| nodes := nodes st; edges := edges st; selectedNode := selectedNode st;
         executingNodeId := executingNodeId st; nodeErrors := nodeErrors st;
         nodeResults := nodeResults st; isExecuting := true |}
  | execution_completed =>
      {| nodes := nodes st; edges := edges st; selectedNode := selectedNode st;
         executingNodeId := executingNodeId st; nodeErrors := nodeErrors st;
         nodeResults := nodeResults st; isExecuting := false |}
  end.


(** The cells of the sidebar's resize handle.  Pixel coordinates are taken
    as integers. *)
Record Resize := mkResize {
  sidebarWidth : Z;
  isResizing : bool;
  startX : Z;
  startWidth : Z;
}.

Definition initialResize : Resize :=
  {| sidebarWidth := 256; isResizing := false; startX := 0; startWidth := 0 |}.

Inductive MouseEvent :=
  | MouseDown (clientX : Z)
  | MouseMove (clientX : Z)
  | MouseUp.

(** [handleMouseDown], [handleMouseMove] and [handleMouseUp]. *)
Definition handleMouse (st : Resize) (ev : MouseEvent) : Resize :=
  match ev with
  | MouseDown clientX =>
      {| sidebarWidth := sidebarWidth st; isResizing := true;
         startX := clientX; startWidth := sidebarWidth st |}
  | MouseMove clientX =>
      if isResizing st then
        let delta := clientX - startX st in
        let newWidth := Z.min (Z.max (startWidth st + delta) 200) 600 in
        {| sidebarWidth := newWidth; isResizing := isResizing st;
           startX := startX st; startWidth := startWidth st |}
      else st
  | MouseUp =>
      {| sidebarWidth := sidebarWidth st; isResizing := false;
         startX := startX st; startWidth := startWidth st |}
  end.

End Editor.

(** ** Vocabulary of the further statements *)

(** Every code unit of the string is white space. *)
Fixpoint all_white_space (s : Js.text) : bool :=
  match s with
  | [] => true
  | c :: r => Js.is_white_space c && all_white_space r
  end.

(** The controllers on which a list of effects calls [abort], and the runs
    it starts, oldest first. *)
Definition aborts_of (effs : list Host.Effect) : list Host.ref :=
  omap (λ e, match e with Host.CallAbort c => Some c | _ => None end) effs.

Definition starts_of (effs : list Host.Effect) : list Host.Run :=
  omap (λ e, match e with Host.CallExecute r => Some r | _ => None end) effs.

(** What every state of the host satisfies, whatever the order of the
    events: the stored controller is the one allocated last, it is not
    aborted and its run is pending; the pending runs have allocated signals,
    no two the same. *)
Definition host_wf (st : Host.State) : Prop :=
  (∀ c, Host.activeAbortController st = Some c →
        Host.aborted st !! c = Some false ∧
        S c = length (Host.aborted st) ∧
        c ∈ Host.run_signal <$> Host.running st) ∧
  (∀ r, r ∈ Host.running st → (Host.run_signal r < length (Host.aborted st))%nat) ∧
  NoDup (Host.run_signal <$> Host.running st).

(** What holds of a state together with the effects that led to it:
    [abort] has been called once on the controllers that are aborted and on
    no other, and the runs started are those of the controllers allocated. *)
Definition trace_wf (st : Host.State) (effs : list Host.Effect) : Prop :=
  host_wf st ∧
  NoDup (aborts_of effs) ∧
  (∀ c, c ∈ aborts_of effs → Host.aborted st !! c = Some true) ∧
  Host.run_signal <$> starts_of effs = seq 0 (length (Host.aborted st)).

(** The graphs of the requests to run that carry a node list and an edge
    list, oldest first. *)
Definition graphs_requested (evs : list Host.Event)
  : list (list WorkflowNode.t * list Edge.t) :=
  omap (λ ev, match ev with
              | Host.Receive (execute_workflow d) => Host.payload d
              | _ => None
              end) evs.

(** Two requests to run, the settling of the first and a request to stop. *)
Definition overlapping_starts (c : Host.ref) (ns1 ns2 : list WorkflowNode.t)
    (es1 es2 : list Edge.t) : list Host.Event :=
  [Host.Receive (execute_workflow (Some {| data_nodes := Some ns1; data_edges := Some es1 |}));
   Host.Receive (execute_workflow (Some {| data_nodes := Some ns2; data_edges := Some es2 |}));
   Host.Settle c;
   Host.Receive abort_workflow].

(** What [onNodeUpdate] does to one node. *)
Definition edit_node (nodeId : string) (p : Editor.DataPatch) (n : WorkflowNode.t)
  : WorkflowNode.t :=
  if decide (WorkflowNode.id n = nodeId) then Editor.updatedNode n p else n.

(** A patch that sets the prompt. *)
Definition prompt_patch (text : string) : Editor.DataPatch :=
  {| Editor.patch_label := None; Editor.patch_command := None;
     Editor.patch_prompt := Some (Some (Js.units text)); Editor.patch_content := None |}.

(** A node list on which the message handler runs, with a preview node. *)
Definition preview_node : WorkflowNode.t :=
  {| WorkflowNode.id := "p-1"; WorkflowNode.type := PREVIEW;
     WorkflowNode.data := {| label := "Preview"; command := None; prompt := None;
                             content := Some "" |} |}.

(** A [node_execution_status] message with all its fields. *)
Definition status_message (n s : string) (r : option string) : WorkflowFromExtension :=
  node_execution_status
    (Some {| status_nodeId := Some n; status_status := Some s; status_result := r |}).

(** [{ content: result }], the patch of the ['completed'] case. *)
Definition content_patch (r : option string) : Editor.DataPatch :=
  {| Editor.patch_label := None; Editor.patch_command := None;
     Editor.patch_prompt := None; Editor.patch_content := Some r |}.

(** A webview that shows one preview node, and one about to run the diamond. *)
Definition preview_editor : Editor.State :=
  {| Editor.nodes := [preview_node]; Editor.edges := [];
     Editor.selectedNode := None; Editor.executingNodeId := None;
     Editor.nodeErrors := ∅; Editor.nodeResults := ∅; Editor.isExecuting := false |}.


(** A node and an edge from an id that is no node. *)
Definition dangling_nodes : list WorkflowNode.t := sample_node <$> ["A"; "B"].
Definition dangling_edges : list Edge.t :=
  [sample_edge "e1" "X" "A"; sample_edge "e2" "A" "B"].

(** * Properties *)

(** ** The JavaScript helpers *)

Lemma or0_Some v : Js.or0 (Some v) = v.
Proof. unfold Js.or0. case_decide; congruence. Qed.

Lemma or0_None : Js.or0 None = 0.
Proof. reflexivity. Qed.

Section FindIndex.
Context {A : Type} (P : A → Prop) `{∀ x, Decision (P x)}.

Lemma findIndex_lower l : -1 ≤ Js.findIndex P l.
Proof. unfold Js.findIndex. destruct (list_find P l) as [[i x]|]; lia. Qed.

Lemma findIndex_none l : Js.findIndex P l = -1 ↔ Forall (λ x, ¬ P x) l.
Proof.
  unfold Js.findIndex. destruct (list_find P l) as [[i x]|] eqn:E.
  - split; [lia|]. intros Hall. pose proof (proj2 (list_find_None P l) Hall). congruence.
  - split; [|done]. intros _. by apply (list_find_None P l).
Qed.

Lemma findIndex_first l i x :
  l !! i = Some x → P x → (∀ j y, (j < i)%nat → l !! j = Some y → ¬ P y) →
  Js.findIndex P l = Z.of_nat i.
Proof.
  intros Hi HP Hleast. unfold Js.findIndex.
  assert (list_find P l = Some (i, x)) as ->; [|done].
  apply list_find_Some. split_and!; [done|done|].
  intros j y Hj Hlt. by eapply Hleast.
Qed.

Lemma find_Some l x : Js.find P l = Some x → x ∈ l ∧ P x.
Proof.
  unfold Js.find. destruct (list_find P l) as [[j y]|] eqn:E; [|done].
  intros [= <-]. apply list_find_Some in E as (Hj & HP & _).
  split; [by eapply list_elem_of_lookup_2 | done].
Qed.

Lemma find_is_Some l x : x ∈ l → P x → is_Some (Js.find P l).
Proof.
  intros Hx HP. unfold Js.find.
  destruct (list_find_elem_of P l x Hx HP) as [[j y] ->]. by eexists.
Qed.

Lemma find_None l : Js.find P l = None ↔ Forall (λ x, ¬ P x) l.
Proof.
  unfold Js.find. rewrite fmap_None. apply (list_find_None P l).
Qed.
End FindIndex.

(** *** Filters *)

Section Filter.
Context {A : Type} (P : A → Prop) `{∀ x, Decision (P x)}.

Lemma filter_none (l : list A) : Forall (λ x, ¬ P x) l → filter P l = [].
Proof.
  induction 1 as [|x l Hx _ IH]; [done|]. by rewrite filter_cons_False.
Qed.

Lemma filter_all (l : list A) : Forall P l → filter P l = l.
Proof.
  induction 1 as [|x l Hx _ IH]; [done|]. rewrite filter_cons_True by done.
  by f_equal.
Qed.

Lemma filter_nil_inv (l : list A) x : filter P l = [] → x ∈ l → ¬ P x.
Proof. intros Hnil Hx HP. by eapply filter_nil_not_elem_of. Qed.

Lemma filter_ext_in (Q : A → Prop) `{∀ x, Decision (Q x)} (l : list A) :
  (∀ x, x ∈ l → P x ↔ Q x) → filter P l = filter Q l.
Proof.
  induction l as [|x l IH]; intros Hext; [done|].
  rewrite !filter_cons, IH by (intros y Hy; apply Hext; by right).
  pose proof (Hext x (list_elem_of_here x l)) as Hx.
  repeat case_decide; tauto || done.
Qed.

End Filter.

Lemma filter_fmap {A B} (P : A → Prop) (f : B → A)
    `{∀ x, Decision (P x)} `{∀ b, Decision (P (f b))} (l : list B) :
  f <$> filter (λ b, P (f b)) l = filter P (f <$> l).
Proof.
  induction l as [|b l IH]; [done|]. rewrite fmap_cons, !filter_cons.
  destruct (decide (P (f b))); destruct (decide (P (f b))); try done;
    rewrite ?fmap_cons; by rewrite IH.
Qed.

(** *** Sorting by a key *)

Section SortByKey.
Context {A : Type} (key : A → Z).

Let cmp : A → A → Z := λ a b, key a - key b.
Let le : A → A → Prop := λ a b, key a ≤ key b.

Lemma sort_insert_filter k x l :
  filter (λ a, key a = k) (Js.sort_insert cmp x l)
  = filter (λ a, key a = k) (x :: l).
Proof.
  induction l as [|y r IH]; simpl; [done|].
  case_decide as Hc; [done|].
  unfold cmp in Hc.
  rewrite filter_cons, IH, !filter_cons.
  repeat case_decide; try done; lia.
Qed.

Lemma sort_insert_elem_of x y l : y ∈ Js.sort_insert cmp x l ↔ y = x ∨ y ∈ l.
Proof.
  induction l as [|z r IH]; simpl.
  - rewrite list_elem_of_singleton, elem_of_nil. tauto.
  - case_decide; rewrite ?elem_of_cons, ?IH; tauto.
Qed.

Lemma sort_insert_sorted x l :
  StronglySorted le l → StronglySorted le (Js.sort_insert cmp x l).
Proof.
  induction 1 as [|y r Hr IH Hy]; simpl.
  - repeat constructor.
  - case_decide as Hc; unfold cmp in Hc.
    + constructor; [by constructor|].
      constructor; [unfold le; lia|].
      eapply Forall_impl; [exact Hy|]. unfold le. intros; simpl in *; lia.
    + constructor; [done|].
      apply Forall_forall. intros z [->|Hz]%sort_insert_elem_of.
      * unfold le; lia.
      * by eapply Forall_forall in Hy.
Qed.

Lemma sort_sorted l : StronglySorted le (Js.sort cmp l).
Proof.
  induction l as [|x l IH]; simpl; [constructor|].
  by apply sort_insert_sorted.
Qed.

Lemma sort_filter k l :
  filter (λ a, key a = k) (Js.sort cmp l) = filter (λ a, key a = k) l.
Proof.
  induction l as [|x l IH]; simpl; [done|].
  rewrite sort_insert_filter, !filter_cons. by rewrite IH.
Qed.

Lemma sort_insert_perm x l : Js.sort_insert cmp x l ≡ₚ x :: l.
Proof.
  induction l as [|y r IH]; simpl; [done|].
  case_decide; [done|]. rewrite IH. apply Permutation_swap.
Qed.

Lemma sort_perm l : Js.sort cmp l ≡ₚ l.
Proof.
  induction l as [|x l IH]; simpl; [done|].
  by rewrite sort_insert_perm, IH.
Qed.

(** A list sorted by key is determined by its classes of equal key. *)
Lemma sorted_by_classes l1 l2 :
  StronglySorted le l1 → StronglySorted le l2 →
  (∀ k, filter (λ a, key a = k) l1 = filter (λ a, key a = k) l2) →
  l1 = l2.
Proof.
  intros H1. revert l2. induction H1 as [|a l1 Hs1 IH Ha]; intros l2 H2 Hcls.
  - destruct l2 as [|b l2]; [done|].
    specialize (Hcls (key b)). rewrite filter_nil, filter_cons_True in Hcls; done.
  - destruct H2 as [|b l2 Hs2 Hb].
    { specialize (Hcls (key a)). rewrite filter_nil, filter_cons_True in Hcls; done. }
    assert (key a = key b) as Hab.
    { destruct (Z.lt_trichotomy (key a) (key b)) as [Hlt|[?|Hlt]]; [|done|]; exfalso.
      - specialize (Hcls (key a)).
        rewrite filter_cons_True, filter_cons_False in Hcls by (done || lia).
        assert (a ∈ filter (λ x, key x = key a) l2) as Hin by (rewrite <-Hcls; left).
        apply list_elem_of_filter in Hin as [_ Hin].
        eapply Forall_forall in Hb; [|exact Hin]. unfold le in Hb. lia.
      - specialize (Hcls (key b)).
        rewrite (filter_cons_True _ b), filter_cons_False in Hcls by (done || lia).
        assert (b ∈ filter (λ x, key x = key b) l1) as Hin by (rewrite Hcls; left).
        apply list_elem_of_filter in Hin as [_ Hin].
        eapply Forall_forall in Ha; [|exact Hin]. unfold le in Ha. lia. }
    assert (a = b) as ->.
    { specialize (Hcls (key a)).
      rewrite !filter_cons_True in Hcls by done. congruence. }
    f_equal. apply IH; [done|]. intros k. specialize (Hcls k).
    rewrite !filter_cons in Hcls. case_decide; congruence.
Qed.

Lemma sort_conforms_unique (srt : (A → A → Z) → list A → list A) l :
  Js.sort_conforms srt → srt cmp l = Js.sort cmp l.
Proof.
  intros Hs. destruct (Hs key l) as [Hsorted Hcls].
  apply sorted_by_classes; [done | apply sort_sorted |].
  intros k. by rewrite Hcls, sort_filter.
Qed.

(** The smallest key comes first: a sorted list is its class of key [m]
    followed by the rest, when no key is below [m]. *)
Lemma sorted_min_class_first m l :
  StronglySorted le l → Forall (λ a, m ≤ key a) l →
  l = filter (λ a, key a = m) l ++ filter (λ a, key a ≠ m) l.
Proof.
  induction 1 as [|a l Hs IH Ha]; intros Hm; [done|].
  apply Forall_cons in Hm as [Hma Hm].
  destruct (decide (key a = m)) as [Heq|Hne].
  - rewrite filter_cons_True, filter_cons_False by (done || tauto).
    simpl. f_equal. by apply IH.
  - rewrite filter_cons_False, filter_cons_True by done.
    assert (filter (λ x, key x = m) l = []) as ->.
    { apply filter_none.
      eapply Forall_impl; [exact Ha|]. unfold le. simpl. intros; lia. }
    simpl. f_equal.
    symmetry. apply filter_all.
    eapply Forall_impl; [exact Ha|]. unfold le. simpl. intros; lia.
Qed.
End SortByKey.

Lemma js_sort_conforms {A} : Js.sort_conforms (@Js.sort A).
Proof. intros key l. split; [apply sort_sorted | intros k; apply sort_filter]. Qed.

Section SortForward.
Context {A : Type} (key : A → Z).

Let cmp : A → A → Z := λ a b, key a - key b.
Let le : A → A → Prop := λ a b, key a ≤ key b.

Lemma sort_move_left_elem_of x y l :
  y ∈ Js.sort_move_left cmp x l ↔ y = x ∨ y ∈ l.
Proof.
  induction l as [|z r IH]; simpl.
  - rewrite list_elem_of_singleton, elem_of_nil. tauto.
  - case_decide; rewrite ?elem_of_cons, ?IH; tauto.
Qed.

Lemma sort_move_left_sorted x l :
  StronglySorted le l → StronglySorted le (Js.sort_move_left cmp x l).
Proof.
  induction 1 as [|y r Hr IH Hy]; simpl.
  - repeat constructor.
  - case_decide as Hc; unfold cmp in Hc.
    + constructor; [by constructor|].
      constructor; [unfold le; lia|].
      eapply Forall_impl; [exact Hy|]. unfold le. intros; simpl in *; lia.
    + constructor; [done|].
      apply Forall_forall. intros z [->|Hz]%sort_move_left_elem_of.
      * unfold le; lia.
      * by eapply Forall_forall in Hy.
Qed.

Lemma sort_move_left_filter k x l :
  StronglySorted le l →
  filter (λ a, key a = k) (Js.sort_move_left cmp x l)
  = filter (λ a, key a = k) l ++ filter (λ a, key a = k) [x].
Proof.
  induction 1 as [|y r Hr IH Hy]; simpl; [done|].
  case_decide as Hc; unfold cmp in Hc.
  - destruct (decide (key x = k)) as [Hk|Hk].
    + assert (filter (λ a, key a = k) (y :: r) = []) as Hnil.
      { apply filter_none. constructor; [lia|].
        eapply Forall_impl; [exact Hy|]. unfold le. simpl. intros; lia. }
      rewrite filter_cons_True, Hnil by done.
      by rewrite filter_cons_True.
    + rewrite filter_cons_False by done.
      rewrite (filter_cons_False _ x []) by done. by rewrite app_nil_r.
  - rewrite !(filter_cons _ y), IH. by case_decide.
Qed.

Lemma sort_forward_snoc l x :
  Js.sort_forward cmp (l ++ [x]) = Js.sort_move_left cmp x (Js.sort_forward cmp l).
Proof. unfold Js.sort_forward. by rewrite foldl_app. Qed.

Lemma sort_forward_sorted l : StronglySorted le (Js.sort_forward cmp l).
Proof.
  induction l as [|x l IH] using rev_ind; [constructor|].
  rewrite sort_forward_snoc. by apply sort_move_left_sorted.
Qed.

Lemma sort_forward_filter k l :
  filter (λ a, key a = k) (Js.sort_forward cmp l) = filter (λ a, key a = k) l.
Proof.
  induction l as [|x l IH] using rev_ind; [done|].
  rewrite sort_forward_snoc, sort_move_left_filter by apply sort_forward_sorted.
  by rewrite IH, filter_app.
Qed.
End SortForward.

Lemma js_sort_forward_conforms {A} : Js.sort_conforms (@Js.sort_forward A).
Proof.
  intros key l. split; [apply sort_forward_sorted | intros k; apply sort_forward_filter].
Qed.

(** ** The tables built before the loop *)

Lemma degOf_insert d y v x :
  degOf (<[y := v]> d) x = if decide (y = x) then v else degOf d x.
Proof.
  unfold degOf. rewrite lookup_insert. case_decide; [apply or0_Some | done].
Qed.

Lemma degOf_Some d x v : d !! x = Some v → degOf d x = v.
Proof. unfold degOf. intros ->. apply or0_Some. Qed.

Section Tables.
Implicit Types (nodes : list WorkflowNode.t) (edges : list Edge.t) (t : Tables).

Let init_step t (node : WorkflowNode.t) : Tables :=
  {| graph := <[WorkflowNode.id node := []]> (graph t);
     inDegree := <[WorkflowNode.id node := 0]> (inDegree t) |}.

Lemma init_fold_graph nodes t x :
  graph (foldl init_step t nodes) !! x
  = if decide (x ∈ nodeIds nodes) then Some [] else graph t !! x.
Proof.
  revert t. induction nodes as [|n nodes IH]; intros t; simpl; [done|].
  rewrite IH. simpl. rewrite lookup_insert.
  destruct (decide (x ∈ nodeIds nodes)) as [Hin|Hnin].
  - by rewrite decide_True by (by right).
  - destruct (decide (WorkflowNode.id n = x)) as [<-|Hne].
    + by rewrite decide_True by left.
    + rewrite decide_False; [done|]. intros [?|?]%elem_of_cons; congruence.
Qed.

Lemma init_fold_inDegree nodes t x :
  inDegree (foldl init_step t nodes) !! x
  = if decide (x ∈ nodeIds nodes) then Some 0 else inDegree t !! x.
Proof.
  revert t. induction nodes as [|n nodes IH]; intros t; simpl; [done|].
  rewrite IH. simpl. rewrite lookup_insert.
  destruct (decide (x ∈ nodeIds nodes)) as [Hin|Hnin].
  - by rewrite decide_True by (by right).
  - destruct (decide (WorkflowNode.id n = x)) as [<-|Hne].
    + by rewrite decide_True by left.
    + rewrite decide_False; [done|]. intros [?|?]%elem_of_cons; congruence.
Qed.

Lemma init_tables_graph nodes x :
  graph (init_tables nodes) !! x
  = if decide (x ∈ nodeIds nodes) then Some [] else None.
Proof. unfold init_tables. by rewrite (init_fold_graph nodes). Qed.

Lemma init_tables_inDegree nodes x :
  inDegree (init_tables nodes) !! x
  = if decide (x ∈ nodeIds nodes) then Some 0 else None.
Proof. unfold init_tables. by rewrite (init_fold_inDegree nodes). Qed.

Lemma add_edges_graph edges t x :
  graph (foldl add_edge t edges) !! x
  = (λ ts, ts ++ (Edge.target <$> outgoing edges x)) <$> graph t !! x.
Proof.
  revert t. induction edges as [|e edges IH]; intros t; simpl.
  - destruct (graph t !! x); simpl; [|done]. by rewrite app_nil_r.
  - rewrite IH. simpl. rewrite lookup_alter. unfold outgoing.
    rewrite filter_cons.
    destruct (decide (Edge.source e = x)) as [<-|Hne]; [|done].
    destruct (graph t !! Edge.source e); simpl; [|done].
    by rewrite <-app_assoc.
Qed.

Lemma add_edges_degOf edges t x :
  degOf (inDegree (foldl add_edge t edges)) x
  = degOf (inDegree t) x + Z.of_nat (length (incoming edges x)).
Proof.
  revert t. induction edges as [|e edges IH]; intros t; simpl.
  - lia.
  - rewrite IH. simpl. rewrite degOf_insert. unfold incoming.
    rewrite filter_cons.
    destruct (decide (Edge.target e = x)) as [<-|Hne]; [|done].
    unfold degOf. simpl. lia.
Qed.

Lemma add_edges_is_Some edges t x :
  is_Some (inDegree (foldl add_edge t edges) !! x)
  ↔ is_Some (inDegree t !! x) ∨ incoming edges x ≠ [].
Proof.
  revert t. induction edges as [|e edges IH]; intros t; simpl.
  - unfold incoming. rewrite filter_nil. tauto.
  - rewrite IH. simpl. rewrite lookup_insert_is_Some. unfold incoming.
    rewrite filter_cons. case_decide; [|tauto].
    split; [intros _; by right|intros _]. left. left. done.
Qed.

Lemma build_tables_graph nodes edges x :
  graph (build_tables nodes edges) !! x
  = if decide (x ∈ nodeIds nodes)
    then Some (Edge.target <$> outgoing edges x) else None.
Proof.
  unfold build_tables. rewrite add_edges_graph, init_tables_graph.
  by case_decide.
Qed.

Lemma build_tables_degOf nodes edges x :
  degOf (inDegree (build_tables nodes edges)) x
  = Z.of_nat (length (incoming edges x)).
Proof.
  unfold build_tables. rewrite add_edges_degOf.
  unfold degOf at 1. rewrite init_tables_inDegree.
  case_decide; simpl; lia.
Qed.

(** [inDegree.get(node.id) === 0]: a node that no edge points to. *)
Lemma build_tables_source nodes edges x :
  inDegree (build_tables nodes edges) !! x = Some 0
  ↔ x ∈ nodeIds nodes ∧ incoming edges x = [].
Proof.
  pose proof (build_tables_degOf nodes edges x) as Hdeg.
  pose proof (add_edges_is_Some edges (init_tables nodes) x) as Hsome.
  fold (build_tables nodes edges) in Hsome.
  rewrite init_tables_inDegree in Hsome.
  split.
  - intros Hx. rewrite (degOf_Some _ _ _ Hx) in Hdeg.
    assert (incoming edges x = []) as Hin
      by (apply length_zero_iff_nil; lia).
    split; [|done].
    destruct Hsome as [[Hs|Hs] _]; [by eexists | | done].
    case_decide; [done|]. by destruct Hs.
  - intros [Hx Hin]. destruct Hsome as [_ [v Hv]].
    { left. rewrite decide_True by done. by eexists. }
    rewrite (degOf_Some _ _ _ Hv), Hin in Hdeg. simpl in Hdeg. by subst v.
Qed.
End Tables.

(** ** The inner loop over the neighbours *)

Lemma relax_unfold s y :
  relax s y = (<[y := degOf s.1 y - 1]> s.1,
               if decide (degOf s.1 y = 1) then s.2 ++ [y] else s.2).
Proof.
  unfold relax. cbv zeta. fold (degOf s.1 y). rewrite lookup_insert_eq.
  destruct (decide (degOf s.1 y = 1)) as [Heq|Hne].
  - rewrite decide_True; [done|]. f_equal. lia.
  - rewrite decide_False; [done|]. intros [= ?]. lia.
Qed.

Lemma occ_nil x : occ x [] = 0.
Proof. done. Qed.

Lemma occ_cons x y ns :
  occ x (y :: ns) = (if decide (y = x) then 1 else 0) + occ x ns.
Proof.
  unfold occ. rewrite filter_cons. case_decide; simpl length; lia.
Qed.

Lemma occ_nonneg x ns : 0 ≤ occ x ns.
Proof. unfold occ. lia. Qed.

Lemma occ_pos x ns : 0 < occ x ns ↔ x ∈ ns.
Proof.
  induction ns as [|y ns IH].
  - rewrite occ_nil, elem_of_nil. lia.
  - rewrite occ_cons, elem_of_cons. pose proof (occ_nonneg x ns).
    case_decide; [subst; intuition lia|].
    rewrite <-IH. intuition (congruence || lia).
Qed.

(** What the inner loop does to the in-degrees and to the queue, when no
    entry is driven below zero. *)
Lemma relax_fold_spec ns : ∀ d q,
  (∀ y, occ y ns ≤ degOf d y) →
  ∃ pushed,
    (foldl relax (d, q) ns).2 = q ++ pushed ∧
    NoDup pushed ∧
    (∀ x, degOf (foldl relax (d, q) ns).1 x = degOf d x - occ x ns) ∧
    (∀ y, y ∈ pushed ↔ y ∈ ns ∧ degOf d y = occ y ns).
Proof.
  induction ns as [|n ns IH]; intros d q Hle.
  - exists []. simpl. rewrite app_nil_r. split_and!; [done|constructor| |].
    + intros x. rewrite occ_nil. lia.
    + intros y. rewrite elem_of_nil. tauto.
  - simpl. rewrite relax_unfold. simpl.
    set (d1 := <[n := degOf d n - 1]> d).
    assert (∀ x, degOf d1 x = degOf d x - (if decide (n = x) then 1 else 0)) as Hd1.
    { intros x. unfold d1. rewrite degOf_insert. case_decide; [subst|]; lia. }
    assert (∀ y, occ y ns ≤ degOf d1 y) as Hle1.
    { intros y. specialize (Hle y). rewrite occ_cons in Hle. rewrite Hd1. lia. }
    destruct (decide (degOf d n = 1)) as [H1|H1].
    + destruct (IH d1 (q ++ [n]) Hle1) as (pushed & Hq & Hnd & Hdeg & Hin).
      assert (n ∉ ns) as Hn.
      { rewrite <-occ_pos. specialize (Hle1 n). rewrite Hd1 in Hle1.
        rewrite decide_True in Hle1 by done. lia. }
      exists (n :: pushed). split_and!.
      * rewrite Hq. by rewrite <-app_assoc.
      * constructor; [|done]. rewrite Hin. tauto.
      * intros x. rewrite Hdeg, Hd1, occ_cons. lia.
      * intros y. rewrite !elem_of_cons, Hin, Hd1, occ_cons.
        destruct (decide (n = y)) as [<-|Hne].
        -- assert (occ n ns = 0) as ->.
           { pose proof (occ_nonneg n ns). pose proof (proj1 (occ_pos n ns)).
             destruct (decide (0 < occ n ns)); [tauto|lia]. }
           intuition lia.
        -- replace (degOf d y - 0) with (degOf d y) by lia.
           replace (0 + occ y ns) with (occ y ns) by lia.
           intuition congruence.
    + destruct (IH d1 q Hle1) as (pushed & Hq & Hnd & Hdeg & Hin).
      exists pushed. split_and!; [done|done| |].
      * intros x. rewrite Hdeg, Hd1, occ_cons. lia.
      * intros y. rewrite elem_of_cons, Hin, Hd1, occ_cons.
        pose proof (proj1 (occ_pos y ns)). pose proof (occ_nonneg y ns).
        destruct (decide (n = y)) as [<-|Hne].
        -- split; [intros [? ?]; split; [by left|lia]|].
           intros [_ Heq]. split; [|lia]. apply occ_pos. lia.
        -- intuition (congruence || lia).
Qed.

(** *** Termination: the measure *)

Lemma positives_insert d y w :
  (positives (<[y := w]> d) + (if decide (0 < degOf d y)%Z then 1 else 0)
   = positives d + (if decide (0 < w)%Z then 1 else 0))%nat.
Proof.
  unfold positives. set (P := λ kv : string * Z, 0 < kv.2).
  assert (is_Some (filter P d !! y) ↔ 0 < degOf d y) as Hy.
  { unfold is_Some. setoid_rewrite map_lookup_filter_Some. unfold degOf, P. simpl.
    destruct (d !! y) as [v|].
    - rewrite or0_Some. split; [intros (x & [= <-] & ?); done | eauto].
    - rewrite or0_None. split; [intros (x & ? & ?); done | lia]. }
  rewrite map_filter_insert.
  destruct (decide (0 < w)) as [Hw|Hw].
  - rewrite (decide_True (P := P (y, w))) by exact Hw. rewrite map_size_insert.
    destruct (decide (0 < degOf d y)) as [Hd|Hd].
    + apply Hy in Hd as [v ->]. simpl. lia.
    + assert (filter P d !! y = None) as ->; [|simpl; lia].
      apply eq_None_not_Some. by rewrite Hy.
  - rewrite (decide_False (P := P (y, w))) by exact Hw.
    rewrite map_filter_delete, map_size_delete.
    destruct (decide (0 < degOf d y)) as [Hd|Hd].
    + assert (size (filter P d) ≠ 0)%nat as Hne.
      { apply map_size_ne_0_lookup. apply Hy in Hd as [v Hv]. eauto. }
      apply Hy in Hd as [v ->]. simpl. lia.
    + assert (filter P d !! y = None) as ->; [|simpl; lia].
      apply eq_None_not_Some. by rewrite Hy.
Qed.

Lemma relax_measure s y :
  measure (relax s y).1 (relax s y).2 = measure s.1 s.2.
Proof.
  rewrite relax_unfold. unfold measure. simpl.
  pose proof (positives_insert s.1 y (degOf s.1 y - 1)) as Hp.
  destruct (decide (degOf s.1 y = 1)) as [H1|H1].
  - rewrite length_app. simpl.
    rewrite decide_True, decide_False in Hp by lia. lia.
  - destruct (decide (0 < degOf s.1 y)).
    + rewrite decide_True in Hp by lia. lia.
    + rewrite decide_False in Hp by lia. lia.
Qed.

Lemma relax_fold_measure ns s :
  measure (foldl relax s ns).1 (foldl relax s ns).2 = measure s.1 s.2.
Proof.
  revert s. induction ns as [|n ns IH]; intros s; simpl; [done|].
  by rewrite IH, relax_measure.
Qed.

Lemma dequeue_measure g nodeId rest st :
  queue st = nodeId :: rest →
  S (measure (deg (dequeue g nodeId rest st)) (queue (dequeue g nodeId rest st)))
  = measure (deg st) (queue st).
Proof.
  intros Hq. unfold dequeue. simpl.
  destruct (g !! nodeId) as [ns|].
  - rewrite (relax_fold_measure ns (deg st, rest)). unfold measure. simpl.
    rewrite Hq. done.
  - unfold measure. simpl. rewrite Hq. done.
Qed.

(** With fuel for every turn the measure allows, the loop leaves through
    its condition: the queue is empty. *)
Lemma kahn_loop_exits g fuel : ∀ st,
  (measure (deg st) (queue st) ≤ fuel)%nat →
  queue (kahn_loop fuel g st) = [].
Proof.
  induction fuel as [|fuel IH]; intros st Hm; simpl.
  - unfold measure in Hm. destruct (queue st); [done|simpl in Hm; lia].
  - destruct (queue st) as [|nodeId rest] eqn:Hq; [done|].
    apply IH. pose proof (dequeue_measure g nodeId rest st Hq) as Hd.
    rewrite Hq in Hd. lia.
Qed.

(** More fuel than needed changes nothing. *)
Lemma kahn_loop_more_fuel g fuel : ∀ st k,
  queue (kahn_loop fuel g st) = [] →
  kahn_loop (fuel + k) g st = kahn_loop fuel g st.
Proof.
  induction fuel as [|fuel IH]; intros st k Hq; simpl in *.
  - destruct k; simpl; [done|]. by rewrite Hq.
  - destruct (queue st) as [|nodeId rest] eqn:E; [done|]. by apply IH.
Qed.

(** ** Counting the edges that remain *)

Section Remaining.
Variable ids : list string.

Lemma remaining_cons e edges done x :
  remaining ids (e :: edges) done x
  = (if decide (Edge.target e = x ∧ ¬ processed ids done e) then 1 else 0)
    + remaining ids edges done x.
Proof.
  unfold remaining. rewrite filter_cons. case_decide; simpl length; lia.
Qed.

Lemma neighbours_cons e edges s x :
  occ x (neighbours ids (e :: edges) s)
  = (if decide (s ∈ ids ∧ Edge.source e = s ∧ Edge.target e = x) then 1 else 0)
    + occ x (neighbours ids edges s).
Proof.
  unfold neighbours, outgoing. rewrite filter_cons.
  destruct (decide (s ∈ ids)) as [Hs|Hs].
  - destruct (decide (Edge.source e = s)) as [He|He].
    + rewrite fmap_cons, occ_cons.
      destruct (decide (Edge.target e = x)) as [Ht|Ht].
      * by rewrite decide_True.
      * rewrite decide_False; [done|tauto].
    + rewrite decide_False; [lia|tauto].
  - rewrite decide_False; [|tauto]. rewrite occ_nil. lia.
Qed.

Lemma remaining_nonneg edges done x : 0 ≤ remaining ids edges done x.
Proof. unfold remaining. lia. Qed.

Lemma remaining_snoc edges done s x :
  s ∉ done →
  remaining ids edges (done ++ [s]) x
  = remaining ids edges done x - occ x (neighbours ids edges s).
Proof.
  intros Hs. induction edges as [|e edges IH].
  - unfold remaining, neighbours, outgoing. simpl.
    case_decide; rewrite ?fmap_nil, occ_nil; done.
  - rewrite !remaining_cons, neighbours_cons, IH.
    assert (processed ids (done ++ [s]) e
            ↔ processed ids done e ∨ (Edge.source e = s ∧ s ∈ ids)) as Hp.
    { unfold processed. rewrite elem_of_app, list_elem_of_singleton.
      split; [intros [[?|?] ?]; subst; tauto|].
      intros [[? ?]|[<- ?]]; tauto. }
    assert (processed ids done e → Edge.source e ≠ s) as Hne.
    { intros [Hd _] <-. done. }
    repeat case_decide; try lia; exfalso; tauto.
Qed.

Lemma remaining_zero edges done x e :
  remaining ids edges done x = 0 →
  e ∈ edges → Edge.target e = x → processed ids done e.
Proof.
  unfold remaining. intros Hz He Ht.
  assert (filter (λ e, Edge.target e = x ∧ ¬ processed ids done e) edges = []) as Hnil
    by (apply length_zero_iff_nil; lia).
  destruct (decide (processed ids done e)) as [|Hn]; [done|].
  exfalso. eapply (filter_nil_not_elem_of _ _ e Hnil); [|done]. tauto.
Qed.

Lemma remaining_pos edges done x :
  remaining ids edges done x ≠ 0 →
  ∃ e, e ∈ edges ∧ Edge.target e = x ∧ ¬ processed ids done e.
Proof.
  unfold remaining. intros Hnz.
  destruct (filter (λ e, Edge.target e = x ∧ ¬ processed ids done e) edges)
    as [|e l] eqn:E; [done|].
  assert (e ∈ filter (λ e, Edge.target e = x ∧ ¬ processed ids done e) edges) as Hin
    by (rewrite E; left).
  apply list_elem_of_filter in Hin as [[? ?] ?]. eauto.
Qed.

Lemma remaining_nil edges x :
  remaining ids edges [] x = Z.of_nat (length (incoming edges x)).
Proof.
  unfold remaining, incoming. do 2 f_equal.
  apply list_filter_iff. intros e. unfold processed.
  rewrite elem_of_nil. tauto.
Qed.

Lemma neighbours_le_remaining edges done s y :
  s ∉ done → occ y (neighbours ids edges s) ≤ remaining ids edges done y.
Proof.
  intros Hs. pose proof (remaining_snoc edges done s y Hs).
  pose proof (remaining_nonneg edges (done ++ [s]) y). lia.
Qed.

Lemma neighbours_target edges s y :
  y ∈ neighbours ids edges s →
  s ∈ ids ∧ ∃ e, e ∈ edges ∧ Edge.source e = s ∧ Edge.target e = y.
Proof.
  unfold neighbours, outgoing. case_decide; [|by intros ?%elem_of_nil].
  intros (e & -> & [? ?]%list_elem_of_filter)%list_elem_of_fmap. eauto.
Qed.
End Remaining.

(** ** The invariant of the loop *)

Section KahnInvariant.
Variables (nodes : list WorkflowNode.t) (edges : list Edge.t).

Let ids := nodeIds nodes.
Let t := build_tables nodes edges.

Lemma dequeue_build s rest st :
  dequeue (graph t) s rest st
  = {| deg := (foldl relax (deg st, rest) (neighbours ids edges s)).1;
       queue := (foldl relax (deg st, rest) (neighbours ids edges s)).2;
       result := result st ++ [s] |}.
Proof.
  unfold dequeue, t. rewrite build_tables_graph. unfold neighbours, ids.
  by case_decide.
Qed.

Lemma Inv_dequeue st s rest :
  Inv ids edges st → queue st = s :: rest →
  Inv ids edges (dequeue (graph t) s rest st).
Proof.
  intros (Hnd & Hdeg & Hz & Hcomp & Hord & Hdom) Hq.
  rewrite dequeue_build. rewrite Hq in *.
  assert (s ∉ result st) as Hs.
  { apply NoDup_app in Hnd as (_ & Hdisj & _). intros Hin.
    apply (Hdisj s Hin). left. }
  assert (∀ y, occ y (neighbours ids edges s) ≤ degOf (deg st) y) as Hle.
  { intros y. rewrite Hdeg. by apply neighbours_le_remaining. }
  destruct (relax_fold_spec (neighbours ids edges s) (deg st) rest Hle)
    as (pushed & Hq' & Hndp & Hdeg' & Hpush).
  unfold Inv. simpl. rewrite Hq'.
  assert (∀ x, x ∈ (result st ++ [s]) ++ rest ++ pushed
               ↔ x ∈ result st ++ s :: rest ∨ x ∈ pushed) as Hmem.
  { intros x. rewrite !elem_of_app, list_elem_of_singleton, elem_of_cons. tauto. }
  split_and!.
  - replace ((result st ++ [s]) ++ rest ++ pushed)
      with ((result st ++ s :: rest) ++ pushed)
      by (by rewrite <-!app_assoc).
    apply NoDup_app. split_and!; [done| |done].
    intros x Hx [Hns Hocc]%Hpush. apply occ_pos in Hns.
    specialize (Hz x Hx). lia.
  - intros x. rewrite Hdeg', Hdeg. by rewrite remaining_snoc.
  - intros x [Hx|Hx]%Hmem; rewrite Hdeg'.
    + specialize (Hz x Hx). specialize (Hle x).
      pose proof (occ_nonneg x (neighbours ids edges s)). lia.
    + apply Hpush in Hx as [_ ->]. lia.
  - intros x Hx Hzero. rewrite Hdeg' in Hzero. apply Hmem.
    destruct (decide (degOf (deg st) x = 0)) as [H0|H0].
    + left. by apply Hcomp.
    + right. apply Hpush. split; [|lia].
      apply occ_pos. specialize (Hle x).
      pose proof (occ_nonneg x (neighbours ids edges s)). lia.
  - intros e i He [Hi|[Hi Hlast]]%lookup_app_Some.
    + destruct (Hord e i He Hi) as (j & Hj & Hsrc).
      exists j. split; [done|]. by apply lookup_app_l_Some.
    + apply list_lookup_singleton_Some in Hlast as [Hi0 Hts].
      assert (processed ids (result st) e) as [Hsrc _].
      { eapply remaining_zero; [|done|done]. rewrite <-Hdeg.
        apply Hz. rewrite elem_of_app. right. rewrite Hts. left. }
      apply list_elem_of_lookup in Hsrc as [j Hj].
      exists j. split; [|by apply lookup_app_l_Some].
      apply lookup_lt_Some in Hj. lia.
  - intros x [Hx|Hx]%Hmem; [by apply Hdom|].
    apply Hpush in Hx as [Hx _].
    apply neighbours_target in Hx as (_ & e & ? & _ & ?). eauto.
Qed.

Lemma Inv_loop fuel : ∀ st,
  Inv ids edges st → Inv ids edges (kahn_loop fuel (graph t) st).
Proof.
  induction fuel as [|fuel IH]; intros st HI; simpl; [done|].
  destruct (queue st) as [|s rest] eqn:Hq; [done|].
  apply IH. by apply Inv_dequeue.
Qed.
End KahnInvariant.

(** ** The state on entry to the loop *)

Lemma positives_init nodes : positives (inDegree (init_tables nodes)) = 0%nat.
Proof.
  unfold positives. apply map_size_empty_iff, map_empty. intros x.
  apply map_lookup_filter_None. right. intros v Hv.
  rewrite init_tables_inDegree in Hv. case_decide; [|done].
  injection Hv as <-. simpl. lia.
Qed.

Lemma positives_add_edges edges : ∀ t,
  (positives (inDegree (foldl add_edge t edges))
   ≤ positives (inDegree t) + length edges)%nat.
Proof.
  induction edges as [|e edges IH]; intros t; simpl; [lia|].
  etrans; [apply IH|]. simpl.
  pose proof (positives_insert (inDegree t) (Edge.target e)
                (Js.or0 (inDegree t !! Edge.target e) + 1)) as Hp.
  repeat case_decide; lia.
Qed.

Section InitialQueue.
Variables (nodes : list WorkflowNode.t) (edges : list Edge.t).

Let t := build_tables nodes edges.
Let sourceNodes :=
  filter (λ node, inDegree t !! WorkflowNode.id node = Some 0) nodes.

Lemma initialQueue_perm :
  initialQueue nodes edges ≡ₚ WorkflowNode.id <$> sourceNodes.
Proof.
  unfold initialQueue, initialQueue_with. apply fmap_Permutation.
  apply (sort_perm (λ a, firstEdgeIndex edges (WorkflowNode.id a))).
Qed.

Lemma initialQueue_elem_of x :
  x ∈ initialQueue nodes edges ↔ x ∈ nodeIds nodes ∧ incoming edges x = [].
Proof.
  rewrite initialQueue_perm. unfold sourceNodes, nodeIds.
  rewrite !list_elem_of_fmap. setoid_rewrite list_elem_of_filter.
  split.
  - intros (n & -> & Hsrc & Hn). apply build_tables_source in Hsrc as [? ?].
    split; [|done]. exists n. done.
  - intros [(n & -> & Hn) Hin]. exists n. split_and!; [done| |done].
    apply build_tables_source. split; [|done].
    apply list_elem_of_fmap. eauto.
Qed.

Lemma initialQueue_NoDup :
  NoDup (nodeIds nodes) → NoDup (initialQueue nodes edges).
Proof.
  intros Hnd. rewrite initialQueue_perm.
  eapply sublist_NoDup; [exact Hnd|].
  unfold nodeIds. apply fmap_sublist, sublist_filter.
Qed.

Lemma initialQueue_length :
  (length (initialQueue nodes edges) ≤ length nodes)%nat.
Proof.
  rewrite initialQueue_perm, length_fmap. apply length_filter.
Qed.

Lemma initial_measure :
  (measure (inDegree t) (initialQueue nodes edges)
   ≤ length nodes + length edges)%nat.
Proof.
  unfold measure. pose proof initialQueue_length.
  pose proof (positives_add_edges edges (init_tables nodes)) as Hp.
  rewrite positives_init in Hp. fold (build_tables nodes edges) in Hp.
  fold t in Hp. lia.
Qed.

Lemma Inv_init :
  NoDup (nodeIds nodes) →
  Inv (nodeIds nodes) edges
    {| deg := inDegree t; queue := initialQueue nodes edges; result := [] |}.
Proof.
  intros Hnd. unfold Inv. simpl. split_and!.
  - by apply initialQueue_NoDup.
  - intros x. unfold t. by rewrite build_tables_degOf, remaining_nil.
  - intros x [_ Hin]%initialQueue_elem_of.
    unfold t. by rewrite build_tables_degOf, Hin.
  - intros x Hx Hz. apply initialQueue_elem_of. split; [done|].
    unfold t in Hz. rewrite build_tables_degOf in Hz.
    apply length_zero_iff_nil. lia.
  - intros e i _ Hi. done.
  - intros x [Hx _]%initialQueue_elem_of. by left.
Qed.
End InitialQueue.

(** ** What the loop leaves in [result] *)

Section ResultIds.
Variables (nodes : list WorkflowNode.t) (edges : list Edge.t).
Hypothesis Hnodup : NoDup (nodeIds nodes).

Let final : LoopState :=
  kahn_loop (length nodes + length edges) (graph (build_tables nodes edges))
    {| deg := inDegree (build_tables nodes edges);
       queue := initialQueue nodes edges; result := [] |}.

Lemma resultIds_final : resultIds nodes edges = result final.
Proof. reflexivity. Qed.

(** The loop has run to its end. *)
Lemma final_queue : queue final = [].
Proof. apply kahn_loop_exits. simpl. apply initial_measure. Qed.

Lemma final_Inv : Inv (nodeIds nodes) edges final.
Proof. apply Inv_loop. by apply Inv_init. Qed.

(** So the fuel is not felt: any larger amount gives the same state. *)
Lemma resultIds_more_fuel k :
  kahn_loop (length nodes + length edges + k) (graph (build_tables nodes edges))
    {| deg := inDegree (build_tables nodes edges);
       queue := initialQueue nodes edges; result := [] |}
  = final.
Proof. apply kahn_loop_more_fuel, final_queue. Qed.

Lemma resultIds_NoDup : NoDup (resultIds nodes edges).
Proof.
  destruct final_Inv as (Hnd & _). rewrite final_queue, app_nil_r in Hnd. done.
Qed.

Lemma resultIds_order e i :
  e ∈ edges → resultIds nodes edges !! i = Some (Edge.target e) →
  ∃ j, (j < i)%nat ∧ resultIds nodes edges !! j = Some (Edge.source e).
Proof. destruct final_Inv as (_ & _ & _ & _ & Hord & _). apply Hord. Qed.

Lemma resultIds_dom x :
  x ∈ resultIds nodes edges →
  x ∈ nodeIds nodes ∨ ∃ e, e ∈ edges ∧ Edge.target e = x.
Proof.
  destruct final_Inv as (_ & _ & _ & _ & _ & Hdom). intros Hx. apply Hdom.
  rewrite final_queue, app_nil_r. done.
Qed.

(** A node left out waits for an edge whose source was never dequeued
    (or is no node at all). *)
Lemma resultIds_blocked x :
  x ∈ nodeIds nodes → x ∉ resultIds nodes edges →
  ∃ e, e ∈ edges ∧ Edge.target e = x ∧
       ¬ processed (nodeIds nodes) (resultIds nodes edges) e.
Proof.
  destruct final_Inv as (_ & Hdeg & _ & Hcomp & _). intros Hx Hout.
  apply remaining_pos. rewrite resultIds_final, <-Hdeg. intros Hz.
  apply Hout. specialize (Hcomp x Hx Hz).
  rewrite final_queue, app_nil_r in Hcomp. done.
Qed.
End ResultIds.

(** ** Walks and cycles *)

Section Walks.
Context {A : Type} `{EqDecision A} (R : relation A).

Lemma walk_tail x l : l ≠ [] → walk R (x :: l) → walk R l.
Proof. intros Hl Hw. inversion Hw; subst; done. Qed.

Lemma walk_drop l1 l2 : l2 ≠ [] → walk R (l1 ++ l2) → walk R l2.
Proof.
  intros Hl2. induction l1 as [|a l1 IH]; simpl; [done|].
  intros Hw. apply IH. eapply walk_tail; [|exact Hw].
  destruct l1; simpl; [done|discriminate].
Qed.

Lemma walk_between l2 : ∀ y z l3, walk R (y :: l2 ++ z :: l3) → tc R y z.
Proof.
  induction l2 as [|w l2 IH]; intros y z l3 Hw; simpl in Hw.
  - inversion Hw; subst. by apply tc_once.
  - inversion Hw; subst. eapply tc_l; [done|]. by eapply IH.
Qed.

Lemma walk_repeat l1 y l2 l3 : walk R (l1 ++ y :: l2 ++ y :: l3) → tc R y y.
Proof.
  intros Hw. apply walk_drop in Hw; [|done]. by eapply walk_between.
Qed.

Lemma dup_split (l : list A) :
  ¬ NoDup l → ∃ l1 x l2 l3, l = l1 ++ x :: l2 ++ x :: l3.
Proof.
  induction l as [|a l IH]; intros Hnd.
  - destruct Hnd. constructor.
  - destruct (decide (a ∈ l)) as [Hin|Hout].
    + apply list_elem_of_split in Hin as (l2 & l3 & ->).
      by exists [], a, l2, l3.
    + destruct IH as (l1 & x & l2 & l3 & ->).
      { intros Hl. apply Hnd. by constructor. }
      by exists (a :: l1), x, l2, l3.
Qed.

(** From a set closed under "has a predecessor in the set" a walk of any
    length can be followed backwards. *)
Lemma backward_walk (U : A → Prop) :
  (∀ x, U x → ∃ p, R p x ∧ U p) →
  ∀ n x, U x → ∃ h tl, length tl = n ∧ walk R (h :: tl) ∧ Forall U (h :: tl).
Proof.
  intros Hpred n x Hx. induction n as [|n (h & tl & Hlen & Hw & HU)].
  - exists x, []. split_and!; [done|constructor|by constructor].
  - destruct (Hpred h) as (p & Hp & HUp); [by inversion HU|].
    exists p, (h :: tl). split_and!; [by simpl; f_equal|by constructor|by constructor].
Qed.

(** Such a set, when finite and not empty, holds a cycle. *)
Lemma closed_set_cycle (U : A → Prop) (univ : list A) x :
  (∀ x, U x → x ∈ univ) →
  (∀ x, U x → ∃ p, R p x ∧ U p) →
  U x → ∃ y, tc R y y.
Proof.
  intros Hfin Hpred Hx.
  destruct (backward_walk U Hpred (length univ) x Hx) as (h & tl & Hlen & Hw & HU).
  destruct (decide (NoDup (h :: tl))) as [Hnd|Hnd].
  - exfalso. assert (length (h :: tl) ≤ length univ)%nat as Hle; [|simpl in Hle; lia].
    apply submseteq_length, NoDup_submseteq; [done|].
    intros y Hy. apply Hfin. by eapply Forall_forall in HU.
  - apply dup_split in Hnd as (l1 & y & l2 & l3 & Heq).
    exists y. rewrite Heq in Hw. by eapply walk_repeat.
Qed.
End Walks.

(** A numbering of the ids that grows along every edge rules cycles out. *)
Lemma acyclic_by_rank (rank : string → nat) edges :
  (∀ e, e ∈ edges → (rank (Edge.source e) < rank (Edge.target e))%nat) →
  acyclic edges.
Proof.
  intros Hrank.
  assert (∀ x y, tc (edge_rel edges) x y → (rank x < rank y)%nat) as Hlt.
  { induction 1 as [x y (e & He & <- & <-)|x y z (e & He & <- & <-) _ IH].
    - by apply Hrank.
    - specialize (Hrank e He). lia. }
  intros x Hx. apply Hlt in Hx. lia.
Qed.

(** ** Facts about the sample graphs *)

Lemma endpoints_exist_Forall nodes edges :
  Forall (λ e, Edge.source e ∈ nodeIds nodes ∧ Edge.target e ∈ nodeIds nodes) edges →
  endpoints_exist nodes edges.
Proof. intros Hall e He. by eapply Forall_forall in Hall. Qed.

(** Closed facts about the samples are settled by evaluation. *)
Ltac by_evaluation := apply (bool_decide_unpack _); by vm_compute.

Lemma diamond_acyclic : acyclic diamond_edges.
Proof.
  apply (acyclic_by_rank sample_rank).
  apply (proj1 (Forall_forall
    (λ e, (sample_rank (Edge.source e) < sample_rank (Edge.target e))%nat)
    diamond_edges)).
  by_evaluation.
Defined.

Lemma diamond_nodes_NoDup : NoDup (nodeIds diamond_nodes).
Proof. by_evaluation. Defined.

Lemma diamond_edges_NoDup : NoDup (Edge.id <$> diamond_edges).
Proof. by_evaluation. Defined.

Lemma diamond_endpoints : endpoints_exist diamond_nodes diamond_edges.
Proof. apply endpoints_exist_Forall. by_evaluation. Defined.

Lemma loop_on_cycle : on_cycle loop_edges "A".
Proof.
  eapply tc_l; [|apply tc_once].
  - exists (sample_edge "e1" "A" "B"). split_and!; [|done|done]. by left.
  - exists (sample_edge "e2" "B" "A"). split_and!; [|done|done]. right. by left.
Defined.

(** ** The ids dequeued by the loop *)

Section ResultOrder.
Variables (nodes : list WorkflowNode.t) (edges : list Edge.t).
Hypothesis Hnodup : NoDup (nodeIds nodes).

(** Along a path of edges the loop moves forward. *)
Lemma resultIds_path x y i :
  tc (edge_rel edges) x y → resultIds nodes edges !! i = Some y →
  ∃ j, (j < i)%nat ∧ resultIds nodes edges !! j = Some x.
Proof.
  intros Hxy. revert i.
  induction Hxy as [x y (e & He & <- & <-)|x y z (e & He & <- & <-) _ IH];
    intros i Hi.
  - by apply resultIds_order.
  - destruct (IH i Hi) as (j & Hj & Hy).
    destruct (resultIds_order nodes edges Hnodup e j He Hy) as (k & Hk & Hx).
    exists k. split; [lia|done].
Qed.

(** No id on a cycle is ever dequeued. *)
Lemma resultIds_no_cycle c :
  on_cycle edges c → c ∉ resultIds nodes edges.
Proof.
  intros Hc [i Hi]%list_elem_of_lookup.
  destruct (resultIds_path c c i Hc Hi) as (j & Hj & Hj').
  pose proof (NoDup_lookup _ _ _ _ (resultIds_NoDup nodes edges Hnodup) Hi Hj').
  lia.
Qed.

(** Without a cycle, and with every source a node, every node is dequeued. *)
Lemma resultIds_complete x :
  (∀ e, e ∈ edges → Edge.source e ∈ nodeIds nodes) →
  acyclic edges →
  x ∈ nodeIds nodes → x ∈ resultIds nodes edges.
Proof.
  intros Hsrc Hacyc Hx.
  destruct (decide (x ∈ resultIds nodes edges)) as [|Hout]; [done|exfalso].
  set (U := λ y, y ∈ nodeIds nodes ∧ y ∉ resultIds nodes edges).
  destruct (closed_set_cycle (edge_rel edges) U (nodeIds nodes) x) as [y Hy].
  - by intros y [? _].
  - intros y [Hy Hyout].
    destruct (resultIds_blocked nodes edges Hnodup y Hy Hyout) as (e & He & <- & Hnp).
    exists (Edge.source e). split; [by exists e|].
    split; [by apply Hsrc|]. intros Hin. apply Hnp. split; [done|by apply Hsrc].
  - done.
  - by apply (Hacyc y).
Qed.

Lemma resultIds_subset x :
  (∀ e, e ∈ edges → Edge.target e ∈ nodeIds nodes) →
  x ∈ resultIds nodes edges → x ∈ nodeIds nodes.
Proof.
  intros Htgt [?|(e & He & <-)]%resultIds_dom; [done| |done]. by apply Htgt.
Qed.
End ResultOrder.

(** ** From the dequeued ids back to the nodes *)

Section Lookup.
Variable nodes : list WorkflowNode.t.

Let byId (i : string) : option WorkflowNode.t :=
  Js.find (λ node, WorkflowNode.id node = i) nodes.

Lemma byId_Some i n : byId i = Some n → n ∈ nodes ∧ WorkflowNode.id n = i.
Proof. apply (find_Some (λ node, WorkflowNode.id node = i)). Qed.

Lemma byId_found i :
  i ∈ nodeIds nodes → ∃ n, byId i = Some n.
Proof.
  intros (n & -> & Hn)%list_elem_of_fmap.
  by apply (find_is_Some (λ node, WorkflowNode.id node = WorkflowNode.id n) nodes n).
Qed.

Lemma byId_missing i : i ∉ nodeIds nodes → byId i = None.
Proof.
  intros Hi. apply (find_None (λ node, WorkflowNode.id node = i)).
  apply Forall_forall. intros n Hn <-. apply Hi.
  by apply list_elem_of_fmap_2.
Qed.

Lemma byId_ids (l : list string) :
  nodeIds (omap byId l) = filter (λ i, i ∈ nodeIds nodes) l.
Proof.
  induction l as [|i l IH]; [done|].
  rewrite filter_cons. simpl.
  destruct (decide (i ∈ nodeIds nodes)) as [Hi|Hi].
  - destruct (byId_found i Hi) as [n Hn]. rewrite Hn.
    apply byId_Some in Hn as [_ <-]. unfold nodeIds in *. simpl. by f_equal.
  - by rewrite (byId_missing i Hi).
Qed.
End Lookup.

Lemma topologicalEdgeSort_ids nodes edges :
  nodeIds (topologicalEdgeSort nodes edges)
  = filter (λ i, i ∈ nodeIds nodes) (resultIds nodes edges).
Proof. apply byId_ids. Qed.

Lemma topologicalEdgeSort_elem_of nodes edges n :
  n ∈ topologicalEdgeSort nodes edges → n ∈ nodes.
Proof.
  intros (i & _ & Hn)%list_elem_of_omap. by apply byId_Some in Hn as [? _].
Qed.

Lemma topologicalEdgeSort_ids_NoDup nodes edges :
  NoDup (nodeIds nodes) → NoDup (nodeIds (topologicalEdgeSort nodes edges)).
Proof.
  intros Hnd. rewrite topologicalEdgeSort_ids.
  by apply NoDup_filter, resultIds_NoDup.
Qed.

(** With every target a node, nothing is dropped by the final [filter]. *)
Lemma topologicalEdgeSort_ids_all nodes edges :
  NoDup (nodeIds nodes) →
  (∀ e, e ∈ edges → Edge.target e ∈ nodeIds nodes) →
  nodeIds (topologicalEdgeSort nodes edges) = resultIds nodes edges.
Proof.
  intros Hnd Htgt. rewrite topologicalEdgeSort_ids. apply filter_all.
  apply Forall_forall. intros x. by apply resultIds_subset.
Qed.

(** ** Execution order *)



(** C9. With distinct node ids and any edge list, no id occurs twice in the
    returned order and every returned node is one of the input nodes; with no
    nodes the order is empty; on an acyclic graph whose edges join existing
    nodes the order is a permutation of the nodes. *)
Theorem topologicalEdgeSort_nodup_subset nodes edges :
  NoDup (nodeIds nodes) →
  NoDup (nodeIds (topologicalEdgeSort nodes edges)) ∧
  NoDup (topologicalEdgeSort nodes edges) ∧
  (∀ n, n ∈ topologicalEdgeSort nodes edges → n ∈ nodes) ∧
  (nodes = [] → topologicalEdgeSort nodes edges = []) ∧
  (endpoints_exist nodes edges → acyclic edges →
   topologicalEdgeSort nodes edges ≡ₚ nodes).
Proof.
  intros Hnd.
  pose proof (topologicalEdgeSort_ids_NoDup nodes edges Hnd) as Hids.
  assert (NoDup (topologicalEdgeSort nodes edges)) as Hns
    by (by eapply NoDup_fmap_1).
  split_and!; [done|done|apply topologicalEdgeSort_elem_of| |].
  - intros ->. destruct (topologicalEdgeSort [] edges) as [|n l] eqn:E; [done|].
    assert (n ∈ []) as Hn%elem_of_nil; [|done].
    apply (topologicalEdgeSort_elem_of [] edges). rewrite E. left.
  - intros Hends Hacyc. apply NoDup_Permutation; [done|by eapply NoDup_fmap_1|].
    intros n. split; [apply topologicalEdgeSort_elem_of|]. intros Hn.
    assert (WorkflowNode.id n ∈ resultIds nodes edges) as Hin.
    { apply resultIds_complete; [done| |done|by apply list_elem_of_fmap_2].
      by intros e' [? _]%Hends. }
    apply list_elem_of_omap. exists (WorkflowNode.id n). split; [done|].
    destruct (byId_found nodes (WorkflowNode.id n)) as [n' Hn'];
      [by apply list_elem_of_fmap_2|].
    rewrite Hn'. f_equal.
    apply byId_Some in Hn' as [Hin' Heq].
    apply list_elem_of_lookup in Hn as [i Hi], Hin' as [i' Hi'].
    assert (i' = i) as ->.
    { eapply NoDup_lookup; [exact Hnd| |]; unfold nodeIds;
        rewrite list_lookup_fmap; [rewrite Hi'|rewrite Hi]; simpl; by f_equal. }
    congruence.
Qed.

(** On the diamond. *)
Lemma topologicalEdgeSort_nodup_subset_witness :
  NoDup (nodeIds (topologicalEdgeSort diamond_nodes diamond_edges)) ∧
  topologicalEdgeSort diamond_nodes diamond_edges ≡ₚ diamond_nodes.
Proof.
  destruct (topologicalEdgeSort_nodup_subset diamond_nodes diamond_edges
              diamond_nodes_NoDup) as (Hids & _ & _ & _ & Hperm).
  split; [exact Hids|].
  exact (Hperm diamond_endpoints diamond_acyclic).
Defined.

(** C2, as stated, fails: on the cycle [A→B→A] the sequencer reports
    nothing and returns the empty order, and [onExecute] posts the request to
    run the graph with no error recorded. *)
Lemma cycle_is_not_rejected :
  on_cycle loop_edges "A" ∧
  NoDup (nodeIds loop_nodes) ∧ endpoints_exist loop_nodes loop_edges ∧
  topologicalEdgeSort loop_nodes loop_edges = [] ∧
  Flow.onExecute {| Flow.nodes := loop_nodes; Flow.edges := loop_edges;
                    Flow.nodeErrors := ∅; Flow.abortController := None |}
  = ({| Flow.nodes := loop_nodes; Flow.edges := loop_edges;
        Flow.nodeErrors := ∅; Flow.abortController := Some false |},
     [execute_workflow (Some {| data_nodes := Some loop_nodes;
                                data_edges := Some loop_edges |})]).
Proof.
  split_and!.
  - exact loop_on_cycle.
  - by_evaluation.
  - apply endpoints_exist_Forall. by_evaluation.
  - by vm_compute.
  - by vm_compute.
Qed.

(** C2, amended.  With distinct node ids, a node on a dependency cycle is
    never part of the order [topologicalEdgeSort] returns; the function
    signals nothing, and the order it returns is shorter than the node
    list. *)
Theorem topologicalEdgeSort_omits_cycles nodes edges c :
  NoDup (nodeIds nodes) →
  on_cycle edges c →
  (c ∉ nodeIds (topologicalEdgeSort nodes edges)) ∧
  (c ∈ nodeIds nodes →
   (length (topologicalEdgeSort nodes edges) < length nodes)%nat).
Proof.
  intros Hnd Hc.
  assert (c ∉ nodeIds (topologicalEdgeSort nodes edges)) as Hout.
  { rewrite topologicalEdgeSort_ids. intros [_ Hin]%list_elem_of_filter.
    by eapply resultIds_no_cycle. }
  split; [done|]. intros Hin.
  assert (length (c :: nodeIds (topologicalEdgeSort nodes edges))
          ≤ length (nodeIds nodes))%nat as Hle.
  { apply submseteq_length, NoDup_submseteq.
    - constructor; [done|]. by apply topologicalEdgeSort_ids_NoDup.
    - intros x [->|Hx]%elem_of_cons; [done|].
      apply list_elem_of_fmap in Hx as (n & -> & Hn).
      apply list_elem_of_fmap_2. by eapply topologicalEdgeSort_elem_of. }
  unfold nodeIds in Hle. simpl in Hle. rewrite !length_fmap in Hle. lia.
Qed.

(** On the cycle [A→B→A], for [A]. *)
Lemma topologicalEdgeSort_omits_cycles_witness :
  ("A" ∉ nodeIds (topologicalEdgeSort loop_nodes loop_edges)) ∧
  (length (topologicalEdgeSort loop_nodes loop_edges) < length loop_nodes)%nat.
Proof.
  assert (NoDup (nodeIds loop_nodes)) as Hnd by by_evaluation.
  destruct (topologicalEdgeSort_omits_cycles loop_nodes loop_edges "A"
              Hnd loop_on_cycle) as [Hout Hshort].
  split; [exact Hout|]. apply Hshort. by_evaluation.
Defined.

(** ** The queue before the loop *)

Lemma firstEdgeIndex_none edges x :
  firstEdgeIndex edges x = -1 ↔ outgoing edges x = [].
Proof.
  unfold firstEdgeIndex, outgoing.
  rewrite (findIndex_none (λ edge, Edge.source edge = x)).
  split; [apply filter_none|].
  intros Hnil. apply Forall_forall. intros e He.
  exact (filter_nil_inv (λ e, Edge.source e = x) edges e Hnil He).
Qed.

(** C3, as stated, fails: with roots [A] (one outgoing edge) and [B] (no
    edge), the queue is [B; A]; the root without outgoing edges is first,
    not last. *)
Lemma sources_without_edges_are_not_last :
  initialQueue roots_nodes roots_edges = ["B"; "A"] ∧
  ¬ (∀ a b i j,
       initialQueue roots_nodes roots_edges !! i = Some a →
       initialQueue roots_nodes roots_edges !! j = Some b →
       outgoing roots_edges a ≠ [] → outgoing roots_edges b = [] →
       (i < j)%nat).
Proof.
  split; [by vm_compute|]. intros Hlast.
  assert (1 < 0)%nat; [|lia].
  apply (Hlast "A" "B"); by vm_compute.
Qed.

(** C3, amended.  The queue before the loop holds exactly the ids of the
    nodes that no edge points to; it is ordered by the index of each node's
    first outgoing edge in the edge list ([firstEdgeIndex]), where a node
    without outgoing edges has index [-1]: such nodes come first, in
    node-list order, and the nodes with outgoing edges follow. *)
Theorem initialQueue_order nodes edges :
  initialQueue nodes edges ≡ₚ filter (λ x, incoming edges x = []) (nodeIds nodes) ∧
  StronglySorted (λ a b, firstEdgeIndex edges a ≤ firstEdgeIndex edges b)
                 (initialQueue nodes edges) ∧
  (∀ x, firstEdgeIndex edges x = -1 ↔ outgoing edges x = []) ∧
  (∀ x i e, edges !! i = Some e → Edge.source e = x →
            (∀ j e', (j < i)%nat → edges !! j = Some e' → Edge.source e' ≠ x) →
            firstEdgeIndex edges x = Z.of_nat i) ∧
  ∃ rest,
    initialQueue nodes edges
    = filter (λ x, incoming edges x = [] ∧ outgoing edges x = []) (nodeIds nodes)
      ++ rest ∧
    ∀ x, x ∈ rest → outgoing edges x ≠ [].
Proof.
  set (t := build_tables nodes edges).
  set (key := λ n, firstEdgeIndex edges (WorkflowNode.id n)).
  set (sourceNodes := filter (λ n, inDegree t !! WorkflowNode.id n = Some 0) nodes).
  assert (WorkflowNode.id <$> sourceNodes
          = filter (λ x, incoming edges x = []) (nodeIds nodes)) as Hsrc.
  { unfold sourceNodes.
    rewrite (filter_fmap (λ x, inDegree t !! x = Some 0) WorkflowNode.id).
    apply filter_ext_in. intros x Hx. unfold t. rewrite build_tables_source.
    unfold nodeIds. tauto. }
  assert (initialQueue nodes edges
          = WorkflowNode.id <$> Js.sort (λ a b, key a - key b) sourceNodes) as Hq
    by done.
  split_and!.
  - by rewrite initialQueue_perm, <-Hsrc.
  - rewrite Hq.
    eapply (StronglySorted_fmap _ (λ a b, key a ≤ key b)); [|apply sort_sorted].
    done.
  - apply firstEdgeIndex_none.
  - intros x i e Hi Hx Hleast.
    by apply (findIndex_first (λ edge, Edge.source edge = x) edges i e).
  - exists (WorkflowNode.id <$>
              filter (λ n, key n ≠ -1) (Js.sort (λ a b, key a - key b) sourceNodes)).
    split.
    + rewrite Hq.
      rewrite (sorted_min_class_first key (-1) _ (sort_sorted key sourceNodes)) at 1.
      2:{ apply Forall_forall. intros n _. apply findIndex_lower. }
      rewrite fmap_app. f_equal. rewrite sort_filter.
      unfold sourceNodes. rewrite list_filter_filter.
      rewrite (filter_fmap
                 (λ x, firstEdgeIndex edges x = -1 ∧ inDegree t !! x = Some 0)
                 WorkflowNode.id).
      apply filter_ext_in. intros x Hx. unfold t.
      rewrite build_tables_source, firstEdgeIndex_none. unfold nodeIds. tauto.
    + intros x (n & -> & [Hkey _]%list_elem_of_filter)%list_elem_of_fmap.
      unfold key in Hkey. by rewrite firstEdgeIndex_none in Hkey.
Qed.

(** ** Determinism *)

Lemma initialQueue_with_conforming srt nodes edges :
  Js.sort_conforms srt →
  initialQueue_with srt nodes edges = initialQueue nodes edges.
Proof.
  intros Hs. unfold initialQueue, initialQueue_with. f_equal.
  exact (sort_conforms_unique
           (λ n, firstEdgeIndex edges (WorkflowNode.id n)) srt _ Hs).
Qed.

Lemma topologicalEdgeSort_with_conforming srt nodes edges :
  Js.sort_conforms srt →
  topologicalEdgeSort_with srt nodes edges = topologicalEdgeSort nodes edges.
Proof.
  intros Hs. unfold topologicalEdgeSort, topologicalEdgeSort_with, resultIds_with.
  by rewrite (initialQueue_with_conforming srt).
Qed.

Lemma updateEdgeOrder_with_conforming srt nodes edges :
  Js.sort_conforms srt →
  updateEdgeOrder_with srt nodes edges = updateEdgeOrder nodes edges.
Proof.
  intros Hs. unfold updateEdgeOrder, updateEdgeOrder_with.
  by rewrite (topologicalEdgeSort_with_conforming srt).
Qed.

(** C7. Determinism: two runs of the sequencer on the same node list and
    edge list, each with an [Array.prototype.sort] that conforms to the
    language (the only step the language leaves to the engine), return the
    same order and the same edge numbers.  Neither function writes to its
    arguments: [sort] is applied to the fresh array that [filter] made. *)
Theorem sequencer_deterministic srt1 srt2 nodes edges :
  Js.sort_conforms srt1 → Js.sort_conforms srt2 →
  topologicalEdgeSort_with srt1 nodes edges = topologicalEdgeSort_with srt2 nodes edges ∧
  updateEdgeOrder_with srt1 nodes edges = updateEdgeOrder_with srt2 nodes edges.
Proof.
  intros H1 H2.
  rewrite (topologicalEdgeSort_with_conforming srt1),
    (topologicalEdgeSort_with_conforming srt2),
    (updateEdgeOrder_with_conforming srt1),
    (updateEdgeOrder_with_conforming srt2); done.
Qed.

(** On the diamond, with the two insertion sorts. *)
Lemma sequencer_deterministic_witness :
  topologicalEdgeSort_with Js.sort diamond_nodes diamond_edges
  = topologicalEdgeSort_with Js.sort_forward diamond_nodes diamond_edges ∧
  updateEdgeOrder_with Js.sort diamond_nodes diamond_edges
  = updateEdgeOrder_with Js.sort_forward diamond_nodes diamond_edges.
Proof.
  exact (sequencer_deterministic Js.sort Js.sort_forward diamond_nodes diamond_edges
           js_sort_conforms js_sort_forward_conforms).
Defined.

(** ** Edge numbers *)

Lemma NoDup_fmap_eq {A B} (f : A → B) (l : list A) x y :
  NoDup (f <$> l) → x ∈ l → y ∈ l → f x = f y → x = y.
Proof.
  intros Hnd [i Hi]%list_elem_of_lookup [j Hj]%list_elem_of_lookup Hxy.
  assert (i = j) as ->; [|congruence].
  eapply NoDup_lookup; [exact Hnd| |]; rewrite list_lookup_fmap;
    [rewrite Hi|rewrite Hj]; simpl; by f_equal.
Qed.

Lemma number_edges_other L : ∀ m k key,
  key ∉ Edge.id <$> L → (foldl number_edge (m, k) L).1 !! key = m !! key.
Proof.
  induction L as [|e L IH]; intros m k key Hkey; simpl; [done|].
  unfold number_edge at 2. simpl. rewrite fmap_cons, not_elem_of_cons in Hkey.
  destruct Hkey as [Hne Hkey]. rewrite IH by done. by rewrite lookup_insert_ne.
Qed.

Lemma number_edges_lookup L : ∀ m k i e,
  NoDup (Edge.id <$> L) → L !! i = Some e →
  (foldl number_edge (m, k) L).1 !! Edge.id e = Some (k + Z.of_nat i).
Proof.
  induction L as [|e' L IH]; intros m k i e Hnd Hi; [done|].
  rewrite fmap_cons in Hnd. apply NoDup_cons in Hnd as [Hout Hnd].
  simpl. unfold number_edge at 2. simpl.
  destruct i as [|i]; simpl in Hi.
  - injection Hi as ->. rewrite number_edges_other by done.
    rewrite lookup_insert_eq. f_equal. lia.
  - rewrite (IH _ _ i) by done. f_equal. lia.
Qed.

Lemma number_edges_dom L : ∀ m k key v,
  (foldl number_edge (m, k) L).1 !! key = Some v →
  m !! key = Some v ∨
  ∃ i e, L !! i = Some e ∧ Edge.id e = key ∧ v = k + Z.of_nat i.
Proof.
  induction L as [|e' L IH]; intros m k key v Hv; [by left|].
  simpl in Hv. unfold number_edge at 2 in Hv. simpl in Hv.
  apply IH in Hv as [Hv|(i & e & Hi & He & ->)].
  - apply lookup_insert_Some in Hv as [[<- <-]|[_ Hv]]; [|by left].
    right. exists 0%nat, e'. split_and!; [done|done|lia].
  - right. exists (S i), e. split_and!; [done|done|lia].
Qed.

Lemma number_nodes_flat edges ns : ∀ s,
  foldl (number_node edges) s ns
  = foldl number_edge s (ns ≫= λ n, outgoing edges (WorkflowNode.id n)).
Proof.
  induction ns as [|n ns IH]; intros s; [done|].
  rewrite bind_cons, foldl_app. simpl. by rewrite IH.
Qed.

Lemma updateEdgeOrder_flat nodes edges :
  updateEdgeOrder nodes edges
  = (foldl number_edge (∅, 1) (numbered_edges nodes edges)).1.
Proof.
  unfold updateEdgeOrder, updateEdgeOrder_with.
  by rewrite number_nodes_flat.
Qed.

Lemma numbered_edges_elem_of nodes edges e :
  e ∈ numbered_edges nodes edges
  ↔ e ∈ edges ∧ Edge.source e ∈ nodeIds (topologicalEdgeSort nodes edges).
Proof.
  unfold numbered_edges, outgoing, nodeIds.
  rewrite list_elem_of_bind, list_elem_of_fmap.
  setoid_rewrite list_elem_of_filter. split.
  - intros (n & [Hsrc He] & Hn). split; [done|]. by exists n.
  - intros [He (n & Hsrc & Hn)]. by exists n.
Qed.

Section EdgeNumbers.
Variables (nodes : list WorkflowNode.t) (edges : list Edge.t).
Hypothesis Hnodes : NoDup (nodeIds nodes).
Hypothesis Hedges : NoDup (Edge.id <$> edges).

Let order := topologicalEdgeSort nodes edges.
Let f := λ node, outgoing edges (WorkflowNode.id node).

Lemma order_ids_NoDup : NoDup (nodeIds order).
Proof. by apply topologicalEdgeSort_ids_NoDup. Qed.

Lemma numbered_edges_NoDup : NoDup (numbered_edges nodes edges).
Proof.
  apply NoDup_bind.
  - intros n1 n2 e Hn1 Hn2 [He1 _]%list_elem_of_filter [He2 _]%list_elem_of_filter.
    eapply (NoDup_fmap_eq WorkflowNode.id); [apply order_ids_NoDup|done|done|].
    congruence.
  - intros n _. apply NoDup_filter. by eapply NoDup_fmap_1.
  - eapply NoDup_fmap_1, order_ids_NoDup.
Qed.

Lemma numbered_edges_ids_NoDup : NoDup (Edge.id <$> numbered_edges nodes edges).
Proof.
  apply NoDup_fmap_2_strong; [|apply numbered_edges_NoDup].
  intros e1 e2 [He1 _]%numbered_edges_elem_of [He2 _]%numbered_edges_elem_of.
  by apply (NoDup_fmap_eq Edge.id edges).
Qed.

Lemma updateEdgeOrder_lookup i e :
  numbered_edges nodes edges !! i = Some e →
  updateEdgeOrder nodes edges !! Edge.id e = Some (Z.of_nat i + 1).
Proof.
  intros Hi. rewrite updateEdgeOrder_flat.
  rewrite (number_edges_lookup _ _ _ i e numbered_edges_ids_NoDup Hi).
  f_equal. lia.
Qed.

Lemma updateEdgeOrder_dom k v :
  updateEdgeOrder nodes edges !! k = Some v →
  ∃ i e, numbered_edges nodes edges !! i = Some e ∧ Edge.id e = k ∧
         v = Z.of_nat i + 1.
Proof.
  rewrite updateEdgeOrder_flat. intros [Hv|(i & e & Hi & He & ->)]%number_edges_dom.
  - by rewrite lookup_empty in Hv.
  - exists i, e. split_and!; [done|done|lia].
Qed.

(** The place of a numbered edge in the walk is the place of its number. *)
Lemma updateEdgeOrder_position e v :
  e ∈ edges → updateEdgeOrder nodes edges !! Edge.id e = Some v →
  ∃ i, numbered_edges nodes edges !! i = Some e ∧ v = Z.of_nat i + 1.
Proof.
  intros He (i & e' & Hi & Hid & ->)%updateEdgeOrder_dom.
  exists i. split; [|done]. rewrite Hi. f_equal.
  apply (NoDup_fmap_eq Edge.id edges); [done| |done|done].
  apply list_elem_of_lookup_2 in Hi. by apply numbered_edges_elem_of in Hi as [? _].
Qed.

(** Edges of an earlier node stand before edges of a later node. *)
Lemma numbered_edges_by_node e1 e2 p q i j :
  numbered_edges nodes edges !! p = Some e1 →
  numbered_edges nodes edges !! q = Some e2 →
  nodeIds order !! i = Some (Edge.source e1) →
  nodeIds order !! j = Some (Edge.source e2) →
  (i < j)%nat → (p < q)%nat.
Proof.
  intros Hp Hq Hi Hj Hij.
  assert (numbered_edges nodes edges
          = (take j order ≫= f) ++ (drop j order ≫= f)) as Hsplit.
  { unfold numbered_edges. fold order. fold f.
    by rewrite <-bind_app, take_drop. }
  unfold nodeIds in Hi, Hj. rewrite list_lookup_fmap in Hi, Hj.
  destruct (order !! i) as [n1|] eqn:Hn1; [|done].
  destruct (order !! j) as [n2|] eqn:Hn2; [|done].
  simpl in Hi, Hj. injection Hi as Hi. injection Hj as Hj.
  assert (e1 ∈ take j order ≫= f) as [p' Hp']%list_elem_of_lookup.
  { apply list_elem_of_bind. exists n1. split.
    - apply list_elem_of_filter. split; [done|].
      apply list_elem_of_lookup_2 in Hp.
      by apply numbered_edges_elem_of in Hp as [? _].
    - apply (list_elem_of_lookup_2 _ i). rewrite lookup_take_Some. done. }
  assert (p' = p) as ->.
  { eapply NoDup_lookup; [apply numbered_edges_NoDup| |exact Hp].
    rewrite Hsplit. by apply lookup_app_l_Some. }
  apply lookup_lt_Some in Hp'.
  destruct (decide (q < length (take j order ≫= f))%nat) as [Hlt|]; [exfalso|lia].
  rewrite Hsplit, lookup_app_l in Hq by done.
  apply list_elem_of_lookup_2, list_elem_of_bind in Hq as (n' & He2 & Hn').
  apply list_elem_of_filter in He2 as [He2 _].
  apply list_elem_of_lookup in Hn' as [i' Hi'].
  apply lookup_take_Some in Hi' as [Hi' Hlt'].
  assert (i' = j); [|lia].
  eapply NoDup_lookup; [apply order_ids_NoDup| |]; unfold nodeIds;
    rewrite list_lookup_fmap; [rewrite Hi'; reflexivity|rewrite Hn2; simpl].
  congruence.
Qed.
End EdgeNumbers.

(** C6. Edge numbers, for distinct node ids and distinct edge ids: the
    edges met when walking the execution order, each node's outgoing edges in
    edge-list order, are numbered 1, 2, 3, ... in that order, and no other
    edge has a number; so the numbers are positive, differ from edge to edge,
    and grow with the place of the edge's source in the execution order. *)
Theorem updateEdgeOrder_numbers nodes edges :
  NoDup (nodeIds nodes) → NoDup (Edge.id <$> edges) →
  (∀ i e, numbered_edges nodes edges !! i = Some e →
          updateEdgeOrder nodes edges !! Edge.id e = Some (Z.of_nat i + 1)) ∧
  (∀ k v, updateEdgeOrder nodes edges !! k = Some v →
          1 ≤ v ∧
          ∃ i e, numbered_edges nodes edges !! i = Some e ∧ Edge.id e = k ∧
                 v = Z.of_nat i + 1) ∧
  (∀ e1 e2 v, e1 ∈ edges → e2 ∈ edges →
              updateEdgeOrder nodes edges !! Edge.id e1 = Some v →
              updateEdgeOrder nodes edges !! Edge.id e2 = Some v → e1 = e2) ∧
  (∀ e1 e2 v1 v2 i j, e1 ∈ edges → e2 ∈ edges →
     updateEdgeOrder nodes edges !! Edge.id e1 = Some v1 →
     updateEdgeOrder nodes edges !! Edge.id e2 = Some v2 →
     nodeIds (topologicalEdgeSort nodes edges) !! i = Some (Edge.source e1) →
     nodeIds (topologicalEdgeSort nodes edges) !! j = Some (Edge.source e2) →
     (i < j)%nat → v1 < v2).
Proof.
  intros Hnodes Hedges. split_and!.
  - intros i e. by apply updateEdgeOrder_lookup.
  - intros k v Hv.
    destruct (updateEdgeOrder_dom nodes edges k v Hv)
      as (i & e & Hi & He & ->).
    split; [lia|]. by exists i, e.
  - intros e1 e2 v He1 He2 H1 H2.
    destruct (updateEdgeOrder_position nodes edges Hedges e1 v He1 H1)
      as (i1 & Hi1 & ->).
    destruct (updateEdgeOrder_position nodes edges Hedges e2 _ He2 H2)
      as (i2 & Hi2 & Heq).
    assert (i1 = i2) as -> by lia. congruence.
  - intros e1 e2 v1 v2 i j He1 He2 H1 H2 Hi Hj Hij.
    destruct (updateEdgeOrder_position nodes edges Hedges e1 v1 He1 H1)
      as (p & Hp & ->).
    destruct (updateEdgeOrder_position nodes edges Hedges e2 v2 He2 H2)
      as (q & Hq & ->).
    pose proof (numbered_edges_by_node nodes edges Hnodes Hedges
                  e1 e2 p q i j Hp Hq Hi Hj Hij).
    lia.
Qed.

(** On the diamond: the order is [A; B; C; D], so [B→D] is the third edge met. *)
Lemma updateEdgeOrder_numbers_witness :
  updateEdgeOrder diamond_nodes diamond_edges !! "e3" = Some 3.
Proof.
  destruct (updateEdgeOrder_numbers diamond_nodes diamond_edges
              diamond_nodes_NoDup diamond_edges_NoDup) as [Hnum _].
  exact (Hnum 2%nat (sample_edge "e3" "B" "D") eq_refl).
Defined.

(** ** Edges handed to rendering *)

Lemma updateEdgeOrder_positive nodes edges k v :
  updateEdgeOrder nodes edges !! k = Some v → 1 ≤ v.
Proof.
  rewrite updateEdgeOrder_flat.
  intros [Hv|(i & e & _ & _ & ->)]%number_edges_dom; [|lia].
  by rewrite lookup_empty in Hv.
Qed.

Lemma updateEdgeOrder_unnumbered nodes edges e :
  NoDup (Edge.id <$> edges) →
  e ∈ edges →
  Edge.source e ∉ nodeIds (topologicalEdgeSort nodes edges) →
  updateEdgeOrder nodes edges !! Edge.id e = None.
Proof.
  intros Hedges He Hsrc.
  destruct (updateEdgeOrder nodes edges !! Edge.id e) as [v|] eqn:Hv; [exfalso|done].
  destruct (updateEdgeOrder_position nodes edges Hedges e v He Hv)
    as (i & Hi & _).
  apply list_elem_of_lookup_2, numbered_edges_elem_of in Hi as [_ Hi]. done.
Qed.

(** C10. Every edge is handed to rendering, as an ['ordered-edge'] with an
    [orderNumber]: the number [updateEdgeOrder] last gave its id, which is
    positive, or 0 when its id has no number, as for an edge whose source is
    not in the computed order; 0 is never an assigned number. *)
Theorem edgesWithOrder_numbers nodes0 edges0 edges :
  rendered_edge <$> edgesWithOrder edges (updateEdgeOrder nodes0 edges0) = edges ∧
  (∀ r, r ∈ edgesWithOrder edges (updateEdgeOrder nodes0 edges0) →
     rendered_type r = "ordered-edge" ∧
     match updateEdgeOrder nodes0 edges0 !! Edge.id (rendered_edge r) with
     | Some v => orderNumber (rendered_data r) = v ∧ 0 < v
     | None => orderNumber (rendered_data r) = 0
     end) ∧
  (∀ k v, updateEdgeOrder nodes0 edges0 !! k = Some v → v ≠ 0) ∧
  (NoDup (Edge.id <$> edges0) →
   ∀ r, r ∈ edgesWithOrder edges0 (updateEdgeOrder nodes0 edges0) →
     Edge.source (rendered_edge r) ∉ nodeIds (topologicalEdgeSort nodes0 edges0) →
     orderNumber (rendered_data r) = 0).
Proof.
  split_and!.
  - unfold edgesWithOrder. rewrite <-list_fmap_compose.
    induction edges as [|e edges IH]; [done|]. simpl. by f_equal.
  - intros r (e & -> & He)%list_elem_of_fmap. simpl. split; [done|].
    destruct (updateEdgeOrder nodes0 edges0 !! Edge.id e) as [v|] eqn:Hv.
    + apply updateEdgeOrder_positive in Hv. rewrite or0_Some. lia.
    + done.
  - intros k v Hv%updateEdgeOrder_positive. lia.
  - intros Hedges r (e & -> & He)%list_elem_of_fmap Hsrc. simpl in *.
    by rewrite updateEdgeOrder_unnumbered.
Qed.

(** On the cycle [A→B→A]: no node is in the order, every edge shows 0. *)
Lemma edgesWithOrder_numbers_witness :
  Forall (λ r, orderNumber (rendered_data r) = 0)
         (edgesWithOrder loop_edges (updateEdgeOrder loop_nodes loop_edges)).
Proof.
  destruct (edgesWithOrder_numbers loop_nodes loop_edges loop_edges)
    as (_ & _ & _ & Hzero).
  apply Forall_forall. intros r Hr. apply Hzero; [by_evaluation|done|].
  apply list_elem_of_fmap in Hr as (e & -> & He). simpl.
  assert (topologicalEdgeSort loop_nodes loop_edges = []) as -> by (by vm_compute).
  apply not_elem_of_nil.
Defined.

(** ** Validation before a run ([onExecute]) *)

Lemma newErrors_lookup (msg : WorkflowNode.t → string) c (l : list WorkflowNode.t) :
  (∀ n, n ∈ l → msg n = c) →
  ∀ n, n ∈ l →
    foldl (λ (m : gmap string string) node, <[WorkflowNode.id node := msg node]> m) ∅ l
      !! WorkflowNode.id n = Some c.
Proof.
  induction l as [|a l IH] using rev_ind; intros Hmsg n Hn.
  - by apply elem_of_nil in Hn.
  - rewrite foldl_app. simpl.
    destruct (decide (WorkflowNode.id a = WorkflowNode.id n)) as [Heq|Hne].
    + rewrite Heq, lookup_insert_eq. f_equal. apply Hmsg.
      rewrite elem_of_app, list_elem_of_singleton. by right.
    + rewrite lookup_insert_ne by done.
      apply elem_of_app in Hn as [Hn|Hn%list_elem_of_singleton]; [|by subst].
      apply IH; [|done]. intros n' Hn'. apply Hmsg. rewrite elem_of_app. by left.
Qed.

(** The filter of [onExecute] looks at generate nodes only. *)
Lemma invalid_only_generate node :
  Flow.invalid node = true →
  WorkflowNode.type node = LLM ∧
  Flow.blank (prompt (WorkflowNode.data node)) = true.
Proof. unfold Flow.invalid. by destruct (WorkflowNode.type node). Qed.

(** The generate half of the validation: a blank prompt stops the run, and
    every such node is recorded with the prompt message. *)
Lemma onExecute_rejects_blank_prompt st node :
  node ∈ Flow.nodes st → Flow.invalid node = true →
  (Flow.onExecute st).2 = [] ∧
  ∀ n, n ∈ Flow.nodes st → Flow.invalid n = true →
    Flow.nodeErrors (Flow.onExecute st).1 !! WorkflowNode.id n
    = Some "Prompt field is required".
Proof.
  intros Hnode Hinv. unfold Flow.onExecute.
  set (invalidNodes := filter (λ n, Flow.invalid n = true) (Flow.nodes st)).
  assert (node ∈ invalidNodes) as Hin by (by apply list_elem_of_filter).
  rewrite decide_True.
  2:{ destruct invalidNodes; [by apply elem_of_nil in Hin|simpl; lia]. }
  simpl. split; [done|]. intros n Hn Hninv.
  apply newErrors_lookup; [|by apply list_elem_of_filter].
  intros n' [Hn' _]%list_elem_of_filter.
  apply invalid_only_generate in Hn' as [Hty _].
  unfold Flow.errorMessage. by rewrite Hty.
Qed.

(** Without a blank prompt the request is posted, whatever the command
    nodes hold. *)
Lemma onExecute_posts st :
  (∀ n, n ∈ Flow.nodes st → Flow.invalid n = false) →
  Flow.onExecute st
  = ({| Flow.nodes := Flow.nodes st; Flow.edges := Flow.edges st;
        Flow.nodeErrors := ∅; Flow.abortController := Some false |},
     [execute_workflow (Some {| data_nodes := Some (Flow.nodes st);
                                data_edges := Some (Flow.edges st) |})]).
Proof.
  intros Hvalid. unfold Flow.onExecute.
  rewrite (filter_none (λ n, Flow.invalid n = true)); [done|].
  apply Forall_forall. intros n Hn. rewrite (Hvalid n Hn). done.
Qed.

(** C4, at the failing input: a single command node with empty command
    text.  [onExecute] records no error and posts [execute_workflow]. *)
Theorem onExecute_accepts_empty_command :
  Flow.onExecute {| Flow.nodes := [empty_command_node]; Flow.edges := [];
                    Flow.nodeErrors := ∅; Flow.abortController := None |}
  = ({| Flow.nodes := [empty_command_node]; Flow.edges := [];
        Flow.nodeErrors := ∅; Flow.abortController := Some false |},
     [execute_workflow (Some {| data_nodes := Some [empty_command_node];
                                data_edges := Some [] |})]).
Proof. by vm_compute. Qed.

(** The same run with a blank prompt is stopped. *)
Example onExecute_blank_prompt :
  Flow.onExecute {| Flow.nodes := [blank_prompt_node]; Flow.edges := [];
                    Flow.nodeErrors := ∅; Flow.abortController := None |}
  = ({| Flow.nodes := [blank_prompt_node]; Flow.edges := [];
        Flow.nodeErrors := {[ "llm-1" := "Prompt field is required" ]};
        Flow.abortController := None |}, []).
Proof. by vm_compute. Qed.

(** ** The message handler of the extension host *)

(** C5, as stated, fails: a second [execute_workflow] arriving while the
    first run is pending is not rejected and the first run is not cancelled;
    two runs are then pending, neither signal aborted. *)
Lemma second_start_runs_alongside :
  Host.reachable one_run ∧ length (Host.live one_run) = 1%nat ∧
  ¬ ((Host.handle one_run (Host.Receive diamond_request)).2 = [] ∨
     Host.aborted (Host.handle one_run (Host.Receive diamond_request)).1 !! 0%nat
     = Some true) ∧
  length (Host.live (Host.handle one_run (Host.Receive diamond_request)).1) = 2%nat.
Proof.
  split_and!.
  - by exists [Host.Receive diamond_request].
  - by vm_compute.
  - intros [H|H]; vm_compute in H; discriminate.
  - by vm_compute.
Qed.

Lemma handle_execute st ns es :
  let c := length (Host.aborted st) in
  let r := {| Host.run_nodes := ns; Host.run_edges := es; Host.run_signal := c |} in
  let out := Host.handle st (Host.Receive (execute_workflow
               (Some {| data_nodes := Some ns; data_edges := Some es |}))) in
  out.2 = [Host.CallExecute r] ∧
  Host.activeAbortController out.1 = Some c ∧
  Host.running out.1 = Host.running st ++ [r] ∧
  Host.aborted out.1 !! c = Some false ∧
  (∀ c' b, Host.aborted st !! c' = Some b → Host.aborted out.1 !! c' = Some b).
Proof.
  simpl. split_and!; [done|done|done| |].
  - rewrite lookup_app_r by done. by rewrite Nat.sub_diag.
  - intros c' b Hc'. by apply lookup_app_l_Some.
Qed.

(** C5, amended.  An [execute_workflow] message that carries nodes and
    edges always starts a run, whatever is pending: the handler makes a new
    controller, stores it in [activeAbortController] in place of the previous
    one, and calls [executeWorkflow] with its signal, which is not aborted;
    no pending run is removed and no existing signal changes. *)
Theorem execute_workflow_starts_another_run st ns es :
  let c := length (Host.aborted st) in
  let r := {| Host.run_nodes := ns; Host.run_edges := es; Host.run_signal := c |} in
  let out := Host.handle st (Host.Receive (execute_workflow
               (Some {| data_nodes := Some ns; data_edges := Some es |}))) in
  out.2 = [Host.CallExecute r] ∧
  Host.activeAbortController out.1 = Some c ∧
  Host.running out.1 = Host.running st ++ [r] ∧
  Host.aborted out.1 !! c = Some false ∧
  (∀ c' b, Host.aborted st !! c' = Some b → Host.aborted out.1 !! c' = Some b).
Proof. apply handle_execute. Qed.



(** * Further properties of the code *)

(** ** The order as a whole *)

Lemma relax_fold_queue ns : ∀ d q,
  ∃ pushed, (foldl relax (d, q) ns).2 = q ++ pushed.
Proof.
  induction ns as [|n ns IH]; intros d q; simpl.
  - exists []. by rewrite app_nil_r.
  - rewrite relax_unfold. simpl. case_decide.
    + destruct (IH (<[n:=degOf d n - 1]> d) (q ++ [n])) as [pushed Hp].
      exists (n :: pushed). rewrite Hp. by rewrite <-app_assoc.
    + apply IH.
Qed.

Lemma kahn_loop_prefix g fuel : ∀ st,
  ∃ r, result (kahn_loop fuel g st) ++ queue (kahn_loop fuel g st)
       = (result st ++ queue st) ++ r.
Proof.
  induction fuel as [|fuel IH]; intros st; simpl.
  - exists []. by rewrite app_nil_r.
  - destruct (queue st) as [|s rest] eqn:Hq.
    + exists []. by rewrite Hq, !app_nil_r.
    + destruct (IH (dequeue g s rest st)) as [r Hr]. rewrite Hr.
      unfold dequeue. simpl.
      destruct (g !! s) as [ns|]; simpl.
      * destruct (relax_fold_queue ns (deg st) rest) as [pushed ->].
        exists (pushed ++ r). by rewrite <-!app_assoc.
      * exists r. by rewrite <-!app_assoc.
Qed.

Lemma resultIds_starts_with_queue nodes edges :
  ∃ r, resultIds nodes edges = initialQueue nodes edges ++ r.
Proof.
  destruct (kahn_loop_prefix (graph (build_tables nodes edges))
              (length nodes + length edges)
              {| deg := inDegree (build_tables nodes edges);
                 queue := initialQueue nodes edges; result := [] |}) as [r Hr].
  rewrite (final_queue nodes edges), app_nil_r in Hr. simpl in Hr.
  by exists r.
Qed.

(** X1. [topologicalEdgeSort] keeps the promise of its comment, "nodes with
    no dependencies are placed first": for every node list and edge list the
    returned order begins with the nodes that no edge points to, in the order
    of the queue they were put in. *)
Theorem roots_are_placed_first nodes edges :
  ∃ rest, nodeIds (topologicalEdgeSort nodes edges)
          = initialQueue nodes edges ++ rest ∧
          ∀ x, x ∈ initialQueue nodes edges
               ↔ x ∈ nodeIds nodes ∧ incoming edges x = [].
Proof.
  destruct (resultIds_starts_with_queue nodes edges) as [r Hr].
  exists (filter (λ i, i ∈ nodeIds nodes) r). split.
  - rewrite topologicalEdgeSort_ids, Hr, filter_app. f_equal.
    apply filter_all, Forall_forall. intros x Hx.
    by apply initialQueue_elem_of in Hx as [? _].
  - apply initialQueue_elem_of.
Qed.

Lemma sort_constant_key {A} (key : A → Z) m (l : list A) :
  Forall (λ a, key a = m) l → Js.sort (λ a b, key a - key b) l = l.
Proof.
  intros Hall. apply (sorted_by_classes key).
  - apply sort_sorted.
  - induction Hall as [|a l Ha Hl IH]; [constructor|].
    constructor; [done|].
    eapply Forall_impl; [exact Hl|]. simpl. intros; lia.
  - intros k. apply sort_filter.
Qed.

Lemma initialQueue_no_edges nodes : initialQueue nodes [] = nodeIds nodes.
Proof.
  unfold initialQueue, initialQueue_with, nodeIds.
  rewrite (filter_all (λ node, inDegree (build_tables nodes []) !! WorkflowNode.id node = Some 0)).
  - f_equal.
    apply (sort_constant_key (λ n, firstEdgeIndex [] (WorkflowNode.id n)) (-1)).
    apply Forall_forall. intros n _. by apply firstEdgeIndex_none.
  - apply Forall_forall. intros n Hn. apply build_tables_source.
    split; [by apply list_elem_of_fmap_2|done].
Qed.

Lemma byId_all nodes (l : list WorkflowNode.t) :
  NoDup (nodeIds nodes) → (∀ n, n ∈ l → n ∈ nodes) →
  omap (λ i, Js.find (λ node, WorkflowNode.id node = i) nodes) (WorkflowNode.id <$> l) = l.
Proof.
  intros Hnd. induction l as [|n l IH]; intros Hl; [done|].
  simpl. destruct (byId_found nodes (WorkflowNode.id n)) as [n' Hn'].
  { apply list_elem_of_fmap_2, Hl. left. }
  rewrite Hn'. apply byId_Some in Hn' as [Hin Hid].
  assert (n' = n) as ->.
  { apply (NoDup_fmap_eq WorkflowNode.id nodes); [done|done| |done]. apply Hl. left. }
  f_equal. apply IH. intros m Hm. apply Hl. by right.
Qed.

(** X2. A graph without edges: with distinct node ids the order is the node
    list itself, every node in its place. *)
Theorem topologicalEdgeSort_no_edges nodes :
  NoDup (nodeIds nodes) → topologicalEdgeSort nodes [] = nodes.
Proof.
  intros Hnd.
  destruct (resultIds_starts_with_queue nodes []) as [r Hr].
  rewrite initialQueue_no_edges in Hr.
  assert (r = []) as ->.
  { assert (length (resultIds nodes []) ≤ length (nodeIds nodes))%nat as Hle.
    { apply submseteq_length, NoDup_submseteq; [by apply resultIds_NoDup|].
      intros x [?|(e & He & _)]%resultIds_dom; [done| |done].
      by apply elem_of_nil in He. }
    rewrite Hr, length_app in Hle. destruct r; [done|simpl in Hle; lia]. }
  rewrite app_nil_r in Hr.
  unfold topologicalEdgeSort, topologicalEdgeSort_with.
  fold (resultIds nodes []). rewrite Hr. by apply byId_all.
Qed.

Lemma topologicalEdgeSort_no_edges_witness :
  topologicalEdgeSort diamond_nodes [] = diamond_nodes.
Proof. exact (topologicalEdgeSort_no_edges diamond_nodes diamond_nodes_NoDup). Defined.

Lemma resultIds_source_is_node nodes edges e :
  NoDup (nodeIds nodes) → e ∈ edges →
  Edge.target e ∈ resultIds nodes edges → Edge.source e ∈ nodeIds nodes.
Proof.
  intros Hnd He Ht.
  destruct (final_Inv nodes edges Hnd) as (_ & Hdeg & Hz & _).
  assert (processed (nodeIds nodes) (resultIds nodes edges) e) as [_ ?]; [|done].
  eapply remaining_zero; [|done|done].
  rewrite resultIds_final, <-Hdeg. apply Hz.
  rewrite elem_of_app. by left.
Qed.

Lemma filter_lookup_order {A} (P : A → Prop) `{∀ x, Decision (P x)} (l : list A) i j x y :
  l !! i = Some x → l !! j = Some y → (i < j)%nat → P x → P y →
  ∃ i' j', filter P l !! i' = Some x ∧ filter P l !! j' = Some y ∧ (i' < j')%nat.
Proof.
  intros Hi Hj Hij Hx Hy.
  assert (x ∈ filter P (take j l)) as [i' Hi']%list_elem_of_lookup.
  { apply list_elem_of_filter. split; [done|].
    apply (list_elem_of_lookup_2 _ i). by apply lookup_take_Some. }
  assert (filter P l = filter P (take j l) ++ y :: filter P (drop (S j) l)) as Heq.
  { rewrite <-(take_drop_middle l j y Hj) at 1.
    by rewrite filter_app, filter_cons_True. }
  exists i', (length (filter P (take j l))). rewrite Heq. split_and!.
  - by apply lookup_app_l_Some.
  - by apply list_lookup_middle.
  - by eapply lookup_lt_Some.
Qed.

(** X4. On every graph with distinct node ids, cyclic or with edges from
    ids that are no nodes, the returned order is closed under predecessors: a
    node is in it only if the source of each edge into it is a node and
    stands at a smaller index.  So a node behind an edge whose source is no
    node is never in the order. *)
Theorem topologicalEdgeSort_predecessors_first nodes edges e j :
  NoDup (nodeIds nodes) → e ∈ edges →
  nodeIds (topologicalEdgeSort nodes edges) !! j = Some (Edge.target e) →
  Edge.source e ∈ nodeIds nodes ∧
  ∃ i, (i < j)%nat ∧
       nodeIds (topologicalEdgeSort nodes edges) !! i = Some (Edge.source e).
Proof.
  intros Hnd He Hj.
  pose proof (topologicalEdgeSort_ids_NoDup nodes edges Hnd) as Hids.
  rewrite topologicalEdgeSort_ids in Hj, Hids |- *.
  assert (Edge.target e ∈ filter (λ i, i ∈ nodeIds nodes) (resultIds nodes edges))
    as [Htn [k Hk]%list_elem_of_lookup]%list_elem_of_filter
    by (by eapply list_elem_of_lookup_2).
  assert (Edge.source e ∈ nodeIds nodes) as Hsn.
  { apply (resultIds_source_is_node nodes edges e Hnd He).
    by eapply list_elem_of_lookup_2. }
  split; [done|].
  destruct (resultIds_order nodes edges Hnd e k He Hk) as (k' & Hlt & Hk').
  destruct (filter_lookup_order (λ i, i ∈ nodeIds nodes) _ k' k _ _ Hk' Hk Hlt Hsn Htn)
    as (i' & j' & Hi' & Hj' & Hlt').
  assert (j' = j) as -> by (by eapply NoDup_lookup).
  by exists i'.
Qed.

Lemma topologicalEdgeSort_predecessors_first_witness :
  Edge.source (sample_edge "e3" "B" "D") ∈ nodeIds diamond_nodes ∧
  ∃ i, (i < 3)%nat ∧
       nodeIds (topologicalEdgeSort diamond_nodes diamond_edges) !! i = Some "B".
Proof.
  apply (topologicalEdgeSort_predecessors_first diamond_nodes diamond_edges
           (sample_edge "e3" "B" "D") 3 diamond_nodes_NoDup).
  - by_evaluation.
  - by vm_compute.
Defined.

(** X3. An edge whose source is no node keeps its target out of the order
    for good: [graph.get(edge.source)] is undefined, so the edge is counted
    in the target's in-degree and never taken off it. *)
Theorem dangling_source_blocks_target nodes edges e :
  NoDup (nodeIds nodes) → e ∈ edges →
  Edge.source e ∉ nodeIds nodes →
  Edge.target e ∉ nodeIds (topologicalEdgeSort nodes edges).
Proof.
  intros Hnd He Hsrc Ht. apply Hsrc.
  rewrite topologicalEdgeSort_ids in Ht.
  apply list_elem_of_filter in Ht as [_ Ht].
  by apply (resultIds_source_is_node nodes edges e).
Qed.

(** With [X→A] and [A→B], where [X] is no node: [A] is blocked. *)
Lemma dangling_source_blocks_target_witness :
  "A" ∉ nodeIds (topologicalEdgeSort dangling_nodes dangling_edges).
Proof.
  apply (dangling_source_blocks_target dangling_nodes dangling_edges
           (sample_edge "e1" "X" "A")); by_evaluation.
Defined.

(** ** Edge numbers on a valid graph *)

Lemma numbered_edges_all nodes edges :
  NoDup (nodeIds nodes) → NoDup (Edge.id <$> edges) →
  endpoints_exist nodes edges → acyclic edges →
  numbered_edges nodes edges ≡ₚ edges.
Proof.
  intros Hnd Hed Hends Hacyc.
  apply NoDup_Permutation;
    [by apply numbered_edges_NoDup|by eapply NoDup_fmap_1|].
  intros e. rewrite numbered_edges_elem_of. split; [by intros [? _]|].
  intros He. split; [done|].
  rewrite topologicalEdgeSort_ids_all; [|done|by intros e' [_ ?]%Hends].
  apply resultIds_complete; [done|by intros e' [? _]%Hends|done|].
  by apply Hends in He as [? _].
Qed.

(** X5. On an acyclic graph whose edges join existing nodes, with distinct
    node ids and distinct edge ids, the order numbers shown on the edges are
    the numbers 1 to [n], [n] the number of edges, each on one edge. *)
Theorem edge_badges_are_one_to_n nodes edges :
  NoDup (nodeIds nodes) → NoDup (Edge.id <$> edges) →
  endpoints_exist nodes edges → acyclic edges →
  (λ r, orderNumber (rendered_data r))
    <$> edgesWithOrder edges (updateEdgeOrder nodes edges)
  ≡ₚ seqZ 1 (Z.of_nat (length edges)).
Proof.
  intros Hnd Hed Hends Hacyc.
  pose proof (numbered_edges_all nodes edges Hnd Hed Hends Hacyc) as Hperm.
  unfold edgesWithOrder. rewrite <-list_fmap_compose.
  rewrite <-Hperm at 1. rewrite <-(Permutation_length Hperm).
  assert ((λ e, Js.or0 (updateEdgeOrder nodes edges !! Edge.id e))
            <$> numbered_edges nodes edges
          = seqZ 1 (Z.of_nat (length (numbered_edges nodes edges)))) as Heq.
  { apply list_eq. intros i. rewrite list_lookup_fmap.
    destruct (numbered_edges nodes edges !! i) as [e|] eqn:Hi; simpl.
    - rewrite (updateEdgeOrder_lookup nodes edges Hnd Hed i e Hi), or0_Some.
      rewrite lookup_seqZ_lt; [f_equal; lia|].
      apply lookup_lt_Some in Hi. lia.
    - symmetry. apply lookup_seqZ_ge. apply lookup_ge_None in Hi. lia. }
  by rewrite <-Heq.
Qed.

Lemma edge_badges_are_one_to_n_witness :
  (λ r, orderNumber (rendered_data r))
    <$> edgesWithOrder diamond_edges (updateEdgeOrder diamond_nodes diamond_edges)
  ≡ₚ seqZ 1 (Z.of_nat (length diamond_edges)).
Proof.
  exact (edge_badges_are_one_to_n diamond_nodes diamond_edges
           diamond_nodes_NoDup diamond_edges_NoDup diamond_endpoints diamond_acyclic).
Defined.

(** ** Editing a node *)

Section SameIds.
(** A change of the nodes that keeps every id. *)
Variable f : WorkflowNode.t → WorkflowNode.t.
Hypothesis f_id : ∀ n, WorkflowNode.id (f n) = WorkflowNode.id n.

Lemma nodeIds_same nodes : nodeIds (f <$> nodes) = nodeIds nodes.
Proof.
  unfold nodeIds. rewrite <-list_fmap_compose. apply list_fmap_ext.
  intros i n _. apply f_id.
Qed.

Lemma init_tables_same nodes : init_tables (f <$> nodes) = init_tables nodes.
Proof.
  unfold init_tables. generalize ({| graph := ∅; inDegree := ∅ |}).
  induction nodes as [|n nodes IH]; intros t; [done|].
  simpl. rewrite f_id. apply IH.
Qed.

Lemma build_tables_same nodes edges :
  build_tables (f <$> nodes) edges = build_tables nodes edges.
Proof. unfold build_tables. by rewrite init_tables_same. Qed.

Lemma sort_insert_fmap {A B} (g : A → B) (cmp : B → B → Z) x (s : list A) :
  Js.sort_insert cmp (g x) (g <$> s)
  = g <$> Js.sort_insert (λ a b, cmp (g a) (g b)) x s.
Proof.
  induction s as [|y s IHs]; [done|]. simpl.
  case_decide; [done|]. simpl. f_equal. exact IHs.
Qed.

Lemma sort_fmap {A B} (g : A → B) (cmp : B → B → Z) (l : list A) :
  Js.sort cmp (g <$> l) = g <$> Js.sort (λ a b, cmp (g a) (g b)) l.
Proof.
  unfold Js.sort. induction l as [|x l IH]; [done|]. simpl.
  etrans; [|apply sort_insert_fmap]. f_equal. exact IH.
Qed.

Lemma sort_insert_ext {A} (cmp1 cmp2 : A → A → Z) x (s : list A) :
  (∀ a b, cmp1 a b = cmp2 a b) →
  Js.sort_insert cmp1 x s = Js.sort_insert cmp2 x s.
Proof.
  intros Hext. induction s as [|y s IHs]; [done|]. simpl. rewrite Hext.
  case_decide; [done|]. by rewrite IHs.
Qed.

Lemma sort_ext {A} (cmp1 cmp2 : A → A → Z) (l : list A) :
  (∀ a b, cmp1 a b = cmp2 a b) → Js.sort cmp1 l = Js.sort cmp2 l.
Proof.
  intros Hext. unfold Js.sort. induction l as [|x l IH]; [done|]. simpl.
  by rewrite IH, (sort_insert_ext cmp1 cmp2).
Qed.

Lemma filter_fmap_same (Q : WorkflowNode.t → Prop) `{∀ n, Decision (Q n)}
    (nodes : list WorkflowNode.t) :
  (∀ n, Q (f n) ↔ Q n) → filter Q (f <$> nodes) = f <$> filter Q nodes.
Proof.
  intros HQ. induction nodes as [|n nodes IH]; [done|].
  rewrite fmap_cons, !filter_cons, IH. specialize (HQ n).
  repeat case_decide; done || tauto.
Qed.

Lemma initialQueue_same nodes edges :
  initialQueue (f <$> nodes) edges = initialQueue nodes edges.
Proof.
  unfold initialQueue, initialQueue_with. rewrite build_tables_same.
  rewrite filter_fmap_same by (intros n; by rewrite f_id).
  rewrite sort_fmap, <-list_fmap_compose.
  rewrite (sort_ext _ (compareSources edges)).
  - apply list_fmap_ext. intros i n _. apply f_id.
  - intros a b. unfold compareSources. by rewrite !f_id.
Qed.

Lemma resultIds_same nodes edges :
  resultIds (f <$> nodes) edges = resultIds nodes edges.
Proof.
  unfold resultIds, resultIds_with.
  fold (initialQueue (f <$> nodes) edges). fold (initialQueue nodes edges).
  by rewrite initialQueue_same, build_tables_same, length_fmap.
Qed.

Lemma find_fmap_same nodes i :
  Js.find (λ n, WorkflowNode.id n = i) (f <$> nodes)
  = f <$> Js.find (λ n, WorkflowNode.id n = i) nodes.
Proof.
  induction nodes as [|n nodes IH]; [done|].
  unfold Js.find in *. rewrite fmap_cons. simpl. rewrite f_id.
  case_decide; [done|].
  destruct (list_find _ (f <$> nodes)) as [[k x]|];
    destruct (list_find _ nodes) as [[k' x']|]; simpl in *; congruence.
Qed.

Lemma omap_cons_match {A B} (g : A → option B) x (l : list A) :
  omap g (x :: l) = match g x with Some y => y :: omap g l | None => omap g l end.
Proof. reflexivity. Qed.

Lemma topologicalEdgeSort_same nodes edges :
  topologicalEdgeSort (f <$> nodes) edges = f <$> topologicalEdgeSort nodes edges.
Proof.
  unfold topologicalEdgeSort, topologicalEdgeSort_with.
  fold (resultIds (f <$> nodes) edges). fold (resultIds nodes edges).
  rewrite resultIds_same.
  induction (resultIds nodes edges) as [|i l IH]; [done|].
  rewrite !omap_cons_match, find_fmap_same, IH.
  by destruct (Js.find _ nodes).
Qed.

Lemma updateEdgeOrder_same nodes edges :
  updateEdgeOrder (f <$> nodes) edges = updateEdgeOrder nodes edges.
Proof.
  unfold updateEdgeOrder, updateEdgeOrder_with.
  fold (topologicalEdgeSort (f <$> nodes) edges). fold (topologicalEdgeSort nodes edges).
  rewrite topologicalEdgeSort_same, foldl_fmap. f_equal.
  generalize (∅ : gmap string Z, 1).
  induction (topologicalEdgeSort nodes edges) as [|n l IH]; intros s; [done|].
  simpl. rewrite <-IH. unfold number_node. by rewrite f_id.
Qed.
End SameIds.

Lemma edit_node_id nodeId p n :
  WorkflowNode.id (edit_node nodeId p n) = WorkflowNode.id n.
Proof. unfold edit_node. by case_decide. Qed.

Lemma merge_twice d p : Editor.merge (Editor.merge d p) p = Editor.merge d p.
Proof.
  unfold Editor.merge. simpl.
  by destruct (Editor.patch_label p), (Editor.patch_command p),
    (Editor.patch_prompt p), (Editor.patch_content p).
Qed.

Lemma edit_node_twice nodeId p n :
  edit_node nodeId p (edit_node nodeId p n) = edit_node nodeId p n.
Proof.
  unfold edit_node. destruct (decide (WorkflowNode.id n = nodeId)) as [Hn|Hn].
  - rewrite decide_True by done. unfold Editor.updatedNode. simpl.
    by rewrite merge_twice.
  - by rewrite decide_False.
Qed.

Lemma update_nodes_fst nodeId p b l : ∀ sel,
  (Editor.update_nodes nodeId p b sel l).1 = edit_node nodeId p <$> l.
Proof.
  induction l as [|n l IH]; intros sel; [done|].
  simpl. unfold edit_node at 1. case_decide; simpl; by rewrite IH.
Qed.

Lemma update_nodes_snd nodeId p b l : ∀ sel,
  (Editor.update_nodes nodeId p b sel l).2
  = if b then
      from_option (λ n, Some (Editor.updatedNode n p)) sel
        (last (filter (λ n, WorkflowNode.id n = nodeId) l))
    else sel.
Proof.
  induction l as [|n l IH]; intros sel; simpl.
  - by destruct b.
  - rewrite filter_cons. case_decide; simpl; rewrite IH; [|done].
    destruct b; [|done]. rewrite last_cons.
    by destruct (last (filter _ l)).
Qed.

Lemma onNodeUpdate_nodes nodeId p nodes sel :
  (Editor.onNodeUpdate nodeId p nodes sel).1 = edit_node nodeId p <$> nodes.
Proof. apply update_nodes_fst. Qed.

(** X6. Editing the data of a node with [onNodeUpdate] changes neither the
    execution order (the edited node keeps its place) nor any edge number. *)
Theorem node_edit_keeps_order nodeId p nodes sel edges :
  topologicalEdgeSort (Editor.onNodeUpdate nodeId p nodes sel).1 edges
  = edit_node nodeId p <$> topologicalEdgeSort nodes edges ∧
  nodeIds (topologicalEdgeSort (Editor.onNodeUpdate nodeId p nodes sel).1 edges)
  = nodeIds (topologicalEdgeSort nodes edges) ∧
  updateEdgeOrder (Editor.onNodeUpdate nodeId p nodes sel).1 edges
  = updateEdgeOrder nodes edges.
Proof.
  rewrite onNodeUpdate_nodes.
  rewrite (topologicalEdgeSort_same _ (edit_node_id nodeId p)).
  rewrite (updateEdgeOrder_same _ (edit_node_id nodeId p)).
  split_and!; [done| |done].
  apply (nodeIds_same _ (edit_node_id nodeId p)).
Qed.

Lemma edit_node_absent nodeId p (l : list WorkflowNode.t) :
  nodeId ∉ nodeIds l → edit_node nodeId p <$> l = l.
Proof.
  induction l as [|n l IH]; [done|].
  unfold nodeIds. rewrite fmap_cons, not_elem_of_cons. intros [Hne Hl].
  rewrite fmap_cons, IH by done. unfold edit_node.
  by rewrite decide_False by congruence.
Qed.

Lemma filter_id_absent nodeId (l : list WorkflowNode.t) :
  nodeId ∉ nodeIds l → filter (λ n, WorkflowNode.id n = nodeId) l = [].
Proof.
  intros Hout. apply filter_none, Forall_forall. intros n Hn Hid.
  apply Hout. rewrite <-Hid. by apply list_elem_of_fmap_2.
Qed.

(** X7. [onNodeUpdate] is local and idempotent: the ids stay as they are,
    a node with another id is left untouched in its place, an id that no node
    has changes nothing (nodes and selection), and doing the same update a
    second time changes nothing more. *)
Theorem onNodeUpdate_local_idempotent nodeId p nodes sel :
  nodeIds (Editor.onNodeUpdate nodeId p nodes sel).1 = nodeIds nodes ∧
  (∀ i n, nodes !! i = Some n → WorkflowNode.id n ≠ nodeId →
          (Editor.onNodeUpdate nodeId p nodes sel).1 !! i = Some n) ∧
  (nodeId ∉ nodeIds nodes → Editor.onNodeUpdate nodeId p nodes sel = (nodes, sel)) ∧
  Editor.onNodeUpdate nodeId p
    (Editor.onNodeUpdate nodeId p nodes sel).1
    (Editor.onNodeUpdate nodeId p nodes sel).2
  = Editor.onNodeUpdate nodeId p nodes sel.
Proof.
  split_and!.
  - rewrite onNodeUpdate_nodes. apply (nodeIds_same _ (edit_node_id nodeId p)).
  - intros i n Hi Hne. rewrite onNodeUpdate_nodes, list_lookup_fmap, Hi. simpl.
    unfold edit_node. by rewrite decide_False.
  - intros Hout. apply injective_projections.
    + rewrite onNodeUpdate_nodes. by apply edit_node_absent.
    + unfold Editor.onNodeUpdate. rewrite update_nodes_snd, filter_id_absent by done.
      by case_bool_decide.
  - apply injective_projections.
    + rewrite !onNodeUpdate_nodes, <-list_fmap_compose.
      apply list_fmap_ext. intros i n _. apply edit_node_twice.
    + unfold Editor.onNodeUpdate at 1 4. rewrite !update_nodes_snd.
      rewrite onNodeUpdate_nodes.
      set (matching := filter (λ n, WorkflowNode.id n = nodeId) nodes).
      assert (filter (λ n, WorkflowNode.id n = nodeId) (edit_node nodeId p <$> nodes)
              = edit_node nodeId p <$> matching) as ->.
      { apply filter_fmap_same. intros n. by rewrite edit_node_id. }
      rewrite fmap_last.
      unfold Editor.onNodeUpdate. rewrite update_nodes_snd. fold matching.
      destruct (decide (WorkflowNode.id <$> sel = Some nodeId)) as [Hsel|Hsel].
      * rewrite (bool_decide_eq_true_2 _ Hsel).
        destruct (last matching) as [m|] eqn:Hm; simpl.
        -- assert (WorkflowNode.id m = nodeId) as Hid.
           { apply last_Some_elem_of in Hm.
             by apply list_elem_of_filter in Hm as [? _]. }
           rewrite bool_decide_eq_true_2 by (by rewrite Hid).
           f_equal. unfold edit_node. rewrite decide_True by done.
           unfold Editor.updatedNode. simpl. by rewrite merge_twice.
        -- by rewrite (bool_decide_eq_true_2 _ Hsel).
      * rewrite (bool_decide_eq_false_2 _ Hsel).
        by rewrite (bool_decide_eq_false_2 _ Hsel).
Qed.

Lemma filter_id_unique (nodes : list WorkflowNode.t) s :
  NoDup (nodeIds nodes) → s ∈ nodes →
  filter (λ n, WorkflowNode.id n = WorkflowNode.id s) nodes = [s].
Proof.
  intros Hnd Hs. induction nodes as [|n nodes IH]; [by apply elem_of_nil in Hs|].
  unfold nodeIds in Hnd. rewrite fmap_cons in Hnd.
  apply NoDup_cons in Hnd as [Hn Hnd].
  apply elem_of_cons in Hs as [->|Hs].
  - rewrite filter_cons_True by done. f_equal. by apply filter_id_absent.
  - rewrite filter_cons_False; [by apply IH|].
    intros Heq. apply Hn. rewrite Heq. by apply list_elem_of_fmap_2.
Qed.

(** X8. With distinct node ids, the selection follows an edit: when the
    selected node is one of the nodes, after [onNodeUpdate] the selected node
    is that node as it now stands in the node list (edited if it has the id,
    unchanged if not). *)
Theorem selection_follows_edit nodeId p nodes s :
  NoDup (nodeIds nodes) → s ∈ nodes →
  (Editor.onNodeUpdate nodeId p nodes (Some s)).2 = Some (edit_node nodeId p s) ∧
  edit_node nodeId p s ∈ (Editor.onNodeUpdate nodeId p nodes (Some s)).1.
Proof.
  intros Hnd Hs. split.
  - unfold Editor.onNodeUpdate. rewrite update_nodes_snd. simpl.
    unfold edit_node. case_bool_decide as Hsel.
    + injection Hsel as <-. rewrite decide_True by done.
      by rewrite filter_id_unique.
    + rewrite decide_False; [done|]. intros Heq. apply Hsel. by rewrite Heq.
  - rewrite onNodeUpdate_nodes. by apply list_elem_of_fmap_2.
Qed.

Lemma selection_follows_edit_witness :
  (Editor.onNodeUpdate "llm-1" (prompt_patch "Summarise")
     [blank_prompt_node; empty_command_node] (Some blank_prompt_node)).2
  = Some (edit_node "llm-1" (prompt_patch "Summarise") blank_prompt_node) ∧
  edit_node "llm-1" (prompt_patch "Summarise") blank_prompt_node
  ∈ (Editor.onNodeUpdate "llm-1" (prompt_patch "Summarise")
       [blank_prompt_node; empty_command_node] (Some blank_prompt_node)).1.
Proof.
  apply (selection_follows_edit "llm-1" (prompt_patch "Summarise")
           [blank_prompt_node; empty_command_node] blank_prompt_node);
    by_evaluation.
Defined.

(** ** Validation and what reaches the host *)

Lemma rev_empty {A} (l : list A) : rev l = [] ↔ l = [].
Proof.
  split; [|by intros ->].
  intros Hrev. apply (f_equal (@rev A)) in Hrev. by rewrite rev_involutive in Hrev.
Qed.

Lemma all_white_space_app s1 s2 :
  all_white_space (s1 ++ s2) = all_white_space s1 && all_white_space s2.
Proof.
  induction s1 as [|a s1 IH]; simpl; [done|]. by rewrite IH, andb_assoc.
Qed.

Lemma all_white_space_rev s : all_white_space (rev s) = all_white_space s.
Proof.
  induction s as [|a s IH]; simpl; [done|].
  rewrite all_white_space_app, IH. simpl. by rewrite andb_true_r, andb_comm.
Qed.

Lemma trimStart_empty s :
  Js.trimStart s = [] ↔ all_white_space s = true.
Proof.
  induction s as [|a s IH]; simpl; [done|].
  destruct (Js.is_white_space a); simpl; [done|].
  split; discriminate.
Qed.

Lemma all_white_space_trimStart s :
  all_white_space (Js.trimStart s) = all_white_space s.
Proof.
  induction s as [|a s IH]; simpl; [done|].
  destruct (Js.is_white_space a) eqn:Ha; simpl; [done|]. by rewrite Ha.
Qed.

(** [s.trim() === ''] holds exactly of the strings of white space. *)
Lemma trim_empty s : Js.trim s = [] ↔ all_white_space s = true.
Proof.
  unfold Js.trim. etrans; [apply rev_empty|]. rewrite trimStart_empty.
  by rewrite all_white_space_rev, all_white_space_trimStart.
Qed.

Lemma is_white_space_spec c : Js.is_white_space c = true ↔ c ∈ Js.white_space.
Proof.
  unfold Js.is_white_space. rewrite existsb_exists. split.
  - intros (x & Hx & ->%N.eqb_eq). by apply list_elem_of_In.
  - intros Hc. exists c. split; [by apply list_elem_of_In|apply N.eqb_refl].
Qed.

(** IDEOGRAPHIC SPACE, EM SPACE, ZERO WIDTH NO-BREAK SPACE and LINE
    SEPARATOR make a blank prompt; a letter among them does not. *)
Example blank_wide_spaces :
  Flow.blank (Some [0x3000; 0x2003; 0xFEFF; 0x2028]%N) = true ∧
  Flow.blank (Some ([0x3000] ++ Js.units "a" ++ [0x2028])%N) = false.
Proof. split; by vm_compute. Qed.

Lemma blank_spec o :
  Flow.blank o = true ↔ o = None ∨ ∃ s, o = Some s ∧ all_white_space s = true.
Proof.
  destruct o as [s|]; simpl.
  - rewrite orb_true_iff, !bool_decide_eq_true, trim_empty. split.
    + intros [->|Hs]; right; eexists; split; done.
    + intros [?|(s' & [= <-] & Hs)]; [done|]. by right.
  - split; [by left|done].
Qed.

Lemma invalid_spec n :
  Flow.invalid n = true ↔
  WorkflowNode.type n = LLM ∧
  (prompt (WorkflowNode.data n) = None ∨
   ∃ s, prompt (WorkflowNode.data n) = Some s ∧ all_white_space s = true).
Proof.
  unfold Flow.invalid. rewrite <-blank_spec.
  destruct (WorkflowNode.type n); split;
    solve [by intros [? _] | done | by intros [_ ?]].
Qed.

Lemma onExecute_rejected st :
  (Flow.onExecute st).2 = [] ↔ ∃ n, n ∈ Flow.nodes st ∧ Flow.invalid n = true.
Proof.
  split.
  - intros Hrej.
    destruct (filter (λ n, Flow.invalid n = true) (Flow.nodes st)) as [|n l] eqn:Hf.
    + exfalso. unfold Flow.onExecute in Hrej. rewrite Hf in Hrej. done.
    + exists n.
      assert (n ∈ filter (λ n, Flow.invalid n = true) (Flow.nodes st)) as Hn
        by (rewrite Hf; left).
      apply list_elem_of_filter in Hn. tauto.
  - intros (n & Hn & Hinv). by apply (onExecute_rejects_blank_prompt st n).
Qed.

Lemma onExecute_posts_or_not st :
  (Flow.onExecute st).2 = [] ∨
  (Flow.onExecute st).2
  = [execute_workflow (Some {| data_nodes := Some (Flow.nodes st);
                               data_edges := Some (Flow.edges st) |})].
Proof.
  unfold Flow.onExecute. case_decide; [by left|by right].
Qed.

(** X9. [onExecute] posts nothing exactly when some Generate node has a
    prompt that is undefined, empty or made only of the code units that
    [trim] strips (the 25 of [Js.white_space], those above U+00FF such as
    the ideographic space included); in every
    other case, whatever the other nodes hold and also with no node at all,
    it posts one [execute_workflow] message that carries the node list and
    the edge list as they are. *)
Theorem onExecute_posts_unless_blank_prompt st :
  ((Flow.onExecute st).2 = [] ↔
   ∃ n, n ∈ Flow.nodes st ∧ WorkflowNode.type n = LLM ∧
        (prompt (WorkflowNode.data n) = None ∨
         ∃ s, prompt (WorkflowNode.data n) = Some s ∧ all_white_space s = true)) ∧
  ((Flow.onExecute st).2 ≠ [] →
   (Flow.onExecute st).2
   = [execute_workflow (Some {| data_nodes := Some (Flow.nodes st);
                                data_edges := Some (Flow.edges st) |})]).
Proof.
  split.
  - rewrite onExecute_rejected. by setoid_rewrite invalid_spec.
  - intros Hposted. by destruct (onExecute_posts_or_not st).
Qed.

Lemma newErrors_dom (msg : WorkflowNode.t → string) (l : list WorkflowNode.t) k :
  is_Some (foldl (λ (m : gmap string string) node,
                    <[WorkflowNode.id node := msg node]> m) ∅ l !! k)
  ↔ k ∈ nodeIds l.
Proof.
  induction l as [|a l IH] using rev_ind.
  - simpl. rewrite lookup_empty, elem_of_nil. split; [by intros [? ?]|done].
  - rewrite foldl_app. simpl. rewrite lookup_insert_is_Some, IH.
    unfold nodeIds. rewrite fmap_app, elem_of_app. simpl.
    rewrite list_elem_of_singleton.
    destruct (decide (WorkflowNode.id a = k)); intuition congruence.
Qed.

(** X10. When [onExecute] refuses to run, it replaces the error map: with
    distinct node ids, the nodes that [nodesWithState] then shows in error
    are exactly the Generate nodes with a blank prompt, whatever errors were
    shown before; node list, edge list and controller stay as they were. *)
Theorem validation_marks_blank_prompts st sel mov exe res r :
  NoDup (nodeIds (Flow.nodes st)) →
  (Flow.onExecute st).2 = [] →
  r ∈ Editor.nodesWithState (Flow.nodes (Flow.onExecute st).1) sel mov exe
        (Flow.nodeErrors (Flow.onExecute st).1) res →
  Editor.error r = Flow.invalid (Editor.rendered_node r) ∧
  Flow.nodes (Flow.onExecute st).1 = Flow.nodes st ∧
  Flow.edges (Flow.onExecute st).1 = Flow.edges st ∧
  Flow.abortController (Flow.onExecute st).1 = Flow.abortController st.
Proof.
  intros Hnd Hrej Hr.
  assert (∃ n, n ∈ filter (λ n, Flow.invalid n = true) (Flow.nodes st)) as [n0 Hn0].
  { apply onExecute_rejected in Hrej as (n & ? & ?). exists n.
    by apply list_elem_of_filter. }
  unfold Flow.onExecute in *.
  rewrite decide_True in Hr |- *
    by (destruct (filter _ (Flow.nodes st)); [by apply elem_of_nil in Hn0|simpl; lia]).
  simpl in *. split; [|done].
  apply list_elem_of_fmap in Hr as (n & -> & Hn). simpl.
  destruct (Flow.invalid n) eqn:Hinv.
  - apply bool_decide_eq_true. apply newErrors_dom.
    apply list_elem_of_fmap_2. by apply list_elem_of_filter.
  - apply bool_decide_eq_false. rewrite newErrors_dom.
    intros (n' & Hid & [Hinv' Hn']%list_elem_of_filter)%list_elem_of_fmap.
    assert (n = n') as <- by (by apply (NoDup_fmap_eq WorkflowNode.id (Flow.nodes st))).
    congruence.
Qed.

Lemma validation_marks_blank_prompts_witness :
  Editor.error
    {| Editor.rendered_node := empty_command_node; Editor.selected := false;
       Editor.moving := false; Editor.executing := false; Editor.error := false;
       Editor.result_text := None |}
  = Flow.invalid empty_command_node ∧
  Flow.nodes (Flow.onExecute
    {| Flow.nodes := [blank_prompt_node; empty_command_node]; Flow.edges := [];
       Flow.nodeErrors := {[ "cli-1" := "old" ]}; Flow.abortController := None |}).1
  = [blank_prompt_node; empty_command_node].
Proof.
  destruct (validation_marks_blank_prompts
    {| Flow.nodes := [blank_prompt_node; empty_command_node]; Flow.edges := [];
       Flow.nodeErrors := {[ "cli-1" := "old" ]}; Flow.abortController := None |}
    None None None ∅
    {| Editor.rendered_node := empty_command_node; Editor.selected := false;
       Editor.moving := false; Editor.executing := false; Editor.error := false;
       Editor.result_text := None |}) as (Herr & Hnodes & _).
  - by_evaluation.
  - by vm_compute.
  - right. left.
  - by split.
Defined.

(** X11. What [onExecute] posts always passes the host's test
    [message.data?.nodes && message.data?.edges], an empty graph included:
    handled from any state of the host, a request that was not refused starts
    exactly one run, on the node list and edge list of the webview and with a
    fresh signal; a refused one leaves the host untouched. *)
Theorem onExecute_reaches_host st hst :
  ((Flow.onExecute st).2 = [] →
   Host.run_events hst (Host.Receive <$> (Flow.onExecute st).2) = (hst, [])) ∧
  ((Flow.onExecute st).2 ≠ [] →
   Host.run_events hst (Host.Receive <$> (Flow.onExecute st).2)
   = ({| Host.activeAbortController := Some (length (Host.aborted hst));
         Host.aborted := Host.aborted hst ++ [false];
         Host.running := Host.running hst ++
           [{| Host.run_nodes := Flow.nodes st; Host.run_edges := Flow.edges st;
               Host.run_signal := length (Host.aborted hst) |}] |},
      [Host.CallExecute
         {| Host.run_nodes := Flow.nodes st; Host.run_edges := Flow.edges st;
            Host.run_signal := length (Host.aborted hst) |}])).
Proof.
  split.
  - intros ->. done.
  - intros Hposted.
    destruct (onExecute_posts_or_not st) as [Hno|Hyes]; [done|].
    rewrite Hyes. done.
Qed.



(** ** What is rendered *)

Lemma marks_at_most_one (g : WorkflowNode.t → Editor.RenderedNode)
    (flag : Editor.RenderedNode → bool) (o : option string) nodes :
  (∀ n, flag (g n) = bool_decide (Some (WorkflowNode.id n) = o)) →
  NoDup (nodeIds nodes) →
  (length (filter (λ r, flag r = true) (g <$> nodes)) ≤ 1)%nat.
Proof.
  intros Hg. induction nodes as [|n nodes IH]; [simpl; lia|].
  unfold nodeIds. rewrite fmap_cons. intros [Hn Hnd]%NoDup_cons.
  rewrite fmap_cons, filter_cons. destruct (decide (flag (g n) = true)) as [Hflag|_].
  - rewrite filter_none; [simpl; lia|].
    apply Forall_forall. intros r (m & -> & Hm)%list_elem_of_fmap.
    rewrite Hg in Hflag |- *. rewrite bool_decide_eq_true in Hflag |- *.
    intros Hm'. apply Hn. apply list_elem_of_fmap. exists m. split; [congruence|done].
  - by apply IH.
Qed.

(** X13. [nodesWithState] keeps the nodes and their order, and with distinct
    node ids it marks at most one node as selected, at most one as moving and
    at most one as executing. *)
Theorem nodesWithState_marks_at_most_one nodes sel mov exe errs res :
  NoDup (nodeIds nodes) →
  Editor.rendered_node <$> Editor.nodesWithState nodes sel mov exe errs res = nodes ∧
  (length (filter (λ r, Editor.selected r = true)
             (Editor.nodesWithState nodes sel mov exe errs res)) ≤ 1)%nat ∧
  (length (filter (λ r, Editor.moving r = true)
             (Editor.nodesWithState nodes sel mov exe errs res)) ≤ 1)%nat ∧
  (length (filter (λ r, Editor.executing r = true)
             (Editor.nodesWithState nodes sel mov exe errs res)) ≤ 1)%nat.
Proof.
  intros Hnd. unfold Editor.nodesWithState. split_and!.
  - rewrite <-list_fmap_compose. simpl. apply list_fmap_id.
  - by apply marks_at_most_one with (o := WorkflowNode.id <$> sel).
  - by apply marks_at_most_one with (o := mov).
  - by apply marks_at_most_one with (o := exe).
Qed.

Lemma nodesWithState_marks_at_most_one_witness :
  (length (filter (λ r, Editor.executing r = true)
             (Editor.nodesWithState diamond_nodes None None (Some "B") ∅ ∅)) ≤ 1)%nat.
Proof.
  refine (proj2 (proj2 (proj2 (nodesWithState_marks_at_most_one
            diamond_nodes None None (Some "B") ∅ ∅ _)))).
  by_evaluation.
Defined.

(** ** Messages from the host *)

Lemma onStatus_nodes st n s r :
  Editor.edges (Editor.onStatus st n s r) = Editor.edges st ∧
  (Editor.nodes (Editor.onStatus st n s r) = Editor.nodes st ∨
   Editor.nodes (Editor.onStatus st n s r)
   = edit_node n (content_patch r) <$> Editor.nodes st).
Proof.
  unfold Editor.onStatus.
  destruct (decide (s = "running")); [by split; [|left]|].
  destruct (decide (s = "error")); [by split; [|left]|].
  destruct (decide (s = "completed")); [|by split; [|left]].
  simpl. split; [done|].
  destruct (Js.find _ (Editor.nodes st)) as [node|] eqn:Hfind; [|by left].
  apply find_Some in Hfind as [_ Hid].
  destruct (decide (WorkflowNode.type node = PREVIEW)); [|by left].
  right. rewrite onNodeUpdate_nodes, Hid. done.
Qed.

Lemma messageHandler_nodes st msg :
  (∀ d, msg ≠ workflow_loaded d) →
  Editor.edges (Editor.messageHandler st msg) = Editor.edges st ∧
  ∃ n p, Editor.nodes (Editor.messageHandler st msg) = Editor.nodes st ∨
         Editor.nodes (Editor.messageHandler st msg) = edit_node n p <$> Editor.nodes st.
Proof.
  intros Hmsg. destruct msg as [d|d| |]; simpl.
  - by destruct (Hmsg d).
  - destruct d as [[[n|] [s|] r]|];
      try (split; [done|exists "", (content_patch None); by left]).
    case_decide; [|split; [done|exists "", (content_patch None); by left]].
    destruct (onStatus_nodes st n s r) as [He Hn]. split; [done|].
    by exists n, (content_patch r).
  - split; [done|exists "", (content_patch None); by left].
  - split; [done|exists "", (content_patch None); by left].
Qed.

Lemma edit_node_type nodeId p n :
  WorkflowNode.type (edit_node nodeId p n) = WorkflowNode.type n.
Proof. unfold edit_node. by case_decide. Qed.

(** X14. The messages about a run ([node_execution_status],
    [execution_started], [execution_completed]) never change the shape of
    the graph: edges, node ids and node types stay, and so do the execution
    order and every edge number.  Only [workflow_loaded] replaces the graph. *)
Theorem run_messages_keep_the_graph st msg :
  (∀ d, msg ≠ workflow_loaded d) →
  Editor.edges (Editor.messageHandler st msg) = Editor.edges st ∧
  nodeIds (Editor.nodes (Editor.messageHandler st msg)) = nodeIds (Editor.nodes st) ∧
  WorkflowNode.type <$> Editor.nodes (Editor.messageHandler st msg)
  = WorkflowNode.type <$> Editor.nodes st ∧
  nodeIds (topologicalEdgeSort (Editor.nodes (Editor.messageHandler st msg))
                               (Editor.edges (Editor.messageHandler st msg)))
  = nodeIds (topologicalEdgeSort (Editor.nodes st) (Editor.edges st)) ∧
  updateEdgeOrder (Editor.nodes (Editor.messageHandler st msg))
                  (Editor.edges (Editor.messageHandler st msg))
  = updateEdgeOrder (Editor.nodes st) (Editor.edges st).
Proof.
  intros Hmsg.
  destruct (messageHandler_nodes st msg Hmsg) as (-> & n & p & [-> | ->]); [done|].
  rewrite (topologicalEdgeSort_same _ (edit_node_id n p)).
  rewrite (updateEdgeOrder_same _ (edit_node_id n p)).
  rewrite !(nodeIds_same _ (edit_node_id n p)).
  split_and!; try done.
  rewrite <-list_fmap_compose. apply list_fmap_ext. intros i m _. simpl.
  apply edit_node_type.
Qed.

Lemma run_messages_keep_the_graph_witness :
  nodeIds (Editor.nodes (Editor.messageHandler preview_editor
             (status_message "p-1" "completed" (Some "done"))))
  = nodeIds (Editor.nodes preview_editor).
Proof.
  refine (proj1 (proj2 (run_messages_keep_the_graph preview_editor
            (status_message "p-1" "completed" (Some "done")) _))).
  intros d. discriminate.
Defined.

Lemma find_unique (nodes : list WorkflowNode.t) n :
  NoDup (nodeIds nodes) → n ∈ nodes →
  Js.find (λ m, WorkflowNode.id m = WorkflowNode.id n) nodes = Some n.
Proof.
  intros Hnd Hn.
  destruct (find_is_Some (λ m, WorkflowNode.id m = WorkflowNode.id n) nodes n Hn eq_refl)
    as [m Hm].
  rewrite Hm. f_equal.
  apply find_Some in Hm as [Hm Hid].
  by apply (NoDup_fmap_eq WorkflowNode.id nodes).
Qed.

(** X15. A ['completed'] status shows its result in the node it names when
    that node is a preview node, and only there: with distinct node ids the
    content of that node becomes the result (also when the result is
    undefined), its other fields and all other nodes stay as they were; for
    a node of another type the node list does not change at all. *)
Theorem completed_fills_the_preview st n r :
  NoDup (nodeIds (Editor.nodes st)) → n ∈ Editor.nodes st → WorkflowNode.id n ≠ "" →
  Editor.nodes (Editor.messageHandler st (status_message (WorkflowNode.id n) "completed" r))
  = (if decide (WorkflowNode.type n = PREVIEW)
     then (λ m, if decide (m = n)
                then {| WorkflowNode.id := WorkflowNode.id n;
                        WorkflowNode.type := WorkflowNode.type n;
                        WorkflowNode.data :=
                          {| label := label (WorkflowNode.data n);
                             command := command (WorkflowNode.data n);
                             prompt := prompt (WorkflowNode.data n);
                             content := r |} |}
                else m) <$> Editor.nodes st
     else Editor.nodes st).
Proof.
  intros Hnd Hn Hid. simpl.
  rewrite decide_True by done.
  unfold Editor.onStatus.
  rewrite decide_False by done. rewrite decide_False by done.
  rewrite decide_True by done. simpl.
  rewrite (find_unique _ n Hnd Hn).
  destruct (decide (WorkflowNode.type n = PREVIEW)); [|done].
  rewrite onNodeUpdate_nodes. apply list_fmap_ext. intros i m Hm.
  apply list_elem_of_lookup_2 in Hm. unfold edit_node.
  destruct (decide (WorkflowNode.id m = WorkflowNode.id n)) as [Heq|Hne].
  - assert (m = n) as -> by (by apply (NoDup_fmap_eq WorkflowNode.id (Editor.nodes st))).
    by rewrite decide_True by done.
  - rewrite decide_False by congruence. done.
Qed.

Lemma completed_fills_the_preview_witness :
  Editor.nodes (Editor.messageHandler preview_editor
                  (status_message "p-1" "completed" (Some "done")))
  = [{| WorkflowNode.id := "p-1"; WorkflowNode.type := PREVIEW;
        WorkflowNode.data := {| label := "Preview"; command := None; prompt := None;
                                content := Some "done" |} |}].
Proof.
  refine (eq_trans (completed_fills_the_preview preview_editor preview_node
                      (Some "done") _ _ _) _).
  - by_evaluation.
  - left.
  - discriminate.
  - by vm_compute.
Defined.

(** X16. The display of one step of a run: after ['running'] for a node and
    then a final status for it, no node is shown as executing, the node's
    result is the text of the final message (the empty string when it has
    none), and the node is shown in error exactly when the final status is
    ['error'], whatever error it showed before the step; the errors of the
    other nodes are those from before. *)
Theorem status_lifecycle st n r1 s r2 :
  n ≠ "" → s ≠ "" → s ≠ "running" →
  Editor.executingNodeId (Editor.messageHandler st (status_message n "running" r1))
  = Some n ∧
  Editor.nodeErrors (Editor.messageHandler st (status_message n "running" r1)) !! n
  = None ∧
  Editor.executingNodeId
    (Editor.messageHandler (Editor.messageHandler st (status_message n "running" r1))
                           (status_message n s r2)) = None ∧
  Editor.nodeResults
    (Editor.messageHandler (Editor.messageHandler st (status_message n "running" r1))
                           (status_message n s r2)) !! n = Some (default "" r2) ∧
  Editor.nodeErrors
    (Editor.messageHandler (Editor.messageHandler st (status_message n "running" r1))
                           (status_message n s r2)) !! n
  = (if decide (s = "error") then Some (default "" r2) else None) ∧
  ∀ k, k ≠ n →
    Editor.nodeErrors
      (Editor.messageHandler (Editor.messageHandler st (status_message n "running" r1))
                             (status_message n s r2)) !! k
    = Editor.nodeErrors st !! k.
Proof.
  intros Hn Hs Hrun. simpl.
  rewrite decide_True by (split; [done|discriminate]).
  rewrite decide_True by done.
  unfold Editor.onStatus at 1 2. rewrite decide_True by done. simpl.
  split_and!; [done|apply lookup_delete_eq| | | |].
  all: unfold Editor.onStatus; rewrite (decide_False (P := s = "running")) by done.
  all: destruct (decide (s = "error")); [|destruct (decide (s = "completed"))]; simpl.
  all: rewrite ?decide_True by done; simpl; try done.
  all: try apply lookup_insert_eq; try apply lookup_delete_eq.
  all: intros k Hk; rewrite ?lookup_insert_ne by done; by rewrite lookup_delete_ne by done.
Qed.

Lemma status_lifecycle_witness :
  Editor.nodeResults
    (Editor.messageHandler
       (Editor.messageHandler preview_editor (status_message "p-1" "running" None))
       (status_message "p-1" "completed" (Some "done"))) !! "p-1" = Some "done".
Proof.
  refine (proj1 (proj2 (proj2 (proj2 (status_lifecycle preview_editor "p-1" None
            "completed" (Some "done") _ _ _))))); discriminate.
Defined.

(** ** The host under any order of events *)

Lemma host_wf_initial : host_wf Host.initial.
Proof.
  split_and!; simpl; [done| |constructor].
  intros r Hr. by apply elem_of_nil in Hr.
Qed.

Lemma host_wf_forget st c :
  host_wf st →
  host_wf {| Host.activeAbortController := None;
             Host.aborted := <[c := true]> (Host.aborted st);
             Host.running := Host.running st |}.
Proof.
  intros (_ & Hsig & Hnd). split_and!; simpl; [done| |done].
  intros r Hr. rewrite length_insert. by apply Hsig.
Qed.

Lemma host_wf_handle st ev : host_wf st → host_wf (Host.handle st ev).1.
Proof.
  intros Hwf. destruct ev as [[d| |d|]|c|]; simpl; try done.
  - (* execute_workflow *)
    destruct (Host.payload d) as [[ns es]|]; [|done].
    destruct Hwf as (_ & Hsig & Hnd). split_and!; simpl.
    + intros c [= <-]. split_and!.
      * by apply list_lookup_middle.
      * rewrite length_app. simpl. lia.
      * rewrite fmap_app, elem_of_app. right. left.
    + intros r [Hr| ->%list_elem_of_singleton]%elem_of_app;
        rewrite length_app; simpl; [|lia].
      specialize (Hsig r Hr). lia.
    + rewrite fmap_app. apply NoDup_app. split_and!; [done| |apply NoDup_singleton].
      intros x (r & Hx & Hr)%list_elem_of_fmap Hx'%list_elem_of_singleton.
      specialize (Hsig r Hr). simpl in Hx'. lia.
  - (* abort_workflow *)
    destruct (Host.activeAbortController st); [|done]. by apply host_wf_forget.
  - (* a run settles *)
    case_decide; [|done]. destruct Hwf as (_ & Hsig & Hnd). split_and!; simpl; [done| |].
    + intros r [_ Hr]%list_elem_of_filter. by apply Hsig.
    + rewrite (filter_fmap (λ x, x ≠ c) Host.run_signal). by apply NoDup_filter.
  - (* the panel is disposed *)
    destruct (Host.activeAbortController st); [|done]. by apply host_wf_forget.
Qed.

Lemma run_events_snoc st evs ev :
  Host.run_events st (evs ++ [ev])
  = ((Host.handle (Host.run_events st evs).1 ev).1,
     (Host.run_events st evs).2 ++ (Host.handle (Host.run_events st evs).1 ev).2).
Proof. unfold Host.run_events. by rewrite foldl_app. Qed.

Lemma run_events_host_wf st evs :
  host_wf st → host_wf (Host.run_events st evs).1.
Proof.
  intros Hwf. induction evs as [|ev evs IH] using rev_ind; [done|].
  rewrite run_events_snoc. simpl. by apply host_wf_handle.
Qed.






(** X17. Whatever the order in which messages arrive, runs settle and the
    panel is disposed: when the host holds a controller, it is the one
    created last, it has not been aborted and its run is still pending (so
    [abort_workflow] can only reach the run started last); every pending run
    has a signal of its own. *)
Theorem reachable_host_wf st :
  Host.reachable st →
  (∀ c, Host.activeAbortController st = Some c →
        Host.aborted st !! c = Some false ∧
        S c = length (Host.aborted st) ∧
        ∃ r, r ∈ Host.running st ∧ Host.run_signal r = c) ∧
  (∀ r, r ∈ Host.running st → is_Some (Host.aborted st !! Host.run_signal r)) ∧
  NoDup (Host.run_signal <$> Host.running st).
Proof.
  intros [evs <-].
  destruct (run_events_host_wf Host.initial evs host_wf_initial) as (Htok & Hsig & Hnd).
  split_and!; [|intros r Hr; by apply lookup_lt_is_Some, Hsig|done].
  intros c Hc. destruct (Htok c Hc) as (? & ? & (r & ? & ?)%list_elem_of_fmap).
  split_and!; [done..|]. by exists r.
Qed.

Lemma reachable_host_wf_witness :
  NoDup (Host.run_signal <$> Host.running one_run).
Proof.
  refine (proj2 (proj2 (reachable_host_wf one_run _))).
  by exists [Host.Receive diamond_request].
Defined.

Lemma aborts_of_app l1 l2 : aborts_of (l1 ++ l2) = aborts_of l1 ++ aborts_of l2.
Proof. apply omap_app. Qed.

Lemma starts_of_app l1 l2 : starts_of (l1 ++ l2) = starts_of l1 ++ starts_of l2.
Proof. apply omap_app. Qed.

Lemma trace_wf_forget st effs c tail :
  trace_wf st effs → Host.activeAbortController st = Some c →
  aborts_of tail = [] → starts_of tail = [] →
  trace_wf
    {| Host.activeAbortController := None;
       Host.aborted := <[c := true]> (Host.aborted st);
       Host.running := Host.running st |}
    (effs ++ Host.CallAbort c :: tail).
Proof.
  intros (Hwf & Hnd & Hab & Hst) Hc Htail1 Htail2.
  destruct (proj1 Hwf c Hc) as (Hfalse & Hlen & _).
  unfold trace_wf. rewrite aborts_of_app, starts_of_app.
  change (aborts_of (Host.CallAbort c :: tail)) with (c :: aborts_of tail).
  change (starts_of (Host.CallAbort c :: tail)) with (starts_of tail).
  rewrite Htail1, Htail2, app_nil_r. simpl.
  split_and!.
  - by apply host_wf_forget.
  - apply NoDup_app. split_and!; [done| |apply NoDup_singleton].
    intros x Hx ->%list_elem_of_singleton. specialize (Hab _ Hx). congruence.
  - intros x [Hx| ->%list_elem_of_singleton]%elem_of_app.
    + destruct (decide (x = c)) as [->|Hne].
      * specialize (Hab _ Hx). congruence.
      * rewrite list_lookup_insert_ne by done. by apply Hab.
    + apply list_lookup_insert_eq. lia.
  - by rewrite length_insert.
Qed.

Lemma trace_wf_handle st effs ev :
  trace_wf st effs → trace_wf (Host.handle st ev).1 (effs ++ (Host.handle st ev).2).
Proof.
  intros Htr.
  assert (∀ tail, aborts_of tail = [] → starts_of tail = [] →
            trace_wf st (effs ++ tail)) as Hsame.
  { intros tail Ht1 Ht2. unfold trace_wf.
    by rewrite aborts_of_app, starts_of_app, Ht1, Ht2, !app_nil_r. }
  destruct ev as [[d| |d|]|c|]; simpl.
  - by apply Hsame.
  - by apply Hsame.
  - (* execute_workflow *)
    destruct (Host.payload d) as [[ns es]|] eqn:Hd; [|by apply Hsame].
    pose proof (host_wf_handle st (Host.Receive (execute_workflow d)) (proj1 Htr)) as Hwf'.
    simpl in Hwf'. rewrite Hd in Hwf'.
    destruct Htr as (Hwf & Hnd & Hab & Hst).
    unfold trace_wf. rewrite aborts_of_app, starts_of_app.
    change (aborts_of [Host.CallExecute ?r]) with (@nil Host.ref).
    change (starts_of [Host.CallExecute ?r]) with [r].
    rewrite app_nil_r. simpl. split_and!; [done|done| |].
    + intros x Hx. specialize (Hab x Hx).
      rewrite lookup_app_l; [done|]. by eapply lookup_lt_Some.
    + rewrite fmap_app, Hst, length_app. simpl.
      rewrite Nat.add_1_r, seq_S. done.
  - (* abort_workflow *)
    destruct (Host.activeAbortController st) as [c|] eqn:Hc; [|by apply Hsame].
    by apply trace_wf_forget.
  - (* a run settles *)
    pose proof (host_wf_handle st (Host.Settle c) (proj1 Htr)) as Hwf'.
    simpl in Hwf'. case_decide; [|by apply Hsame].
    destruct Htr as (Hwf & Hnd & Hab & Hst).
    unfold trace_wf. rewrite aborts_of_app, starts_of_app, !app_nil_r. done.
  - (* the panel is disposed *)
    destruct (Host.activeAbortController st) as [c|] eqn:Hc; [|by apply Hsame].
    by apply trace_wf_forget.
Qed.

Lemma run_events_trace_wf evs :
  trace_wf (Host.run_events Host.initial evs).1 (Host.run_events Host.initial evs).2.
Proof.
  induction evs as [|ev evs IH] using rev_ind.
  - split_and!; [apply host_wf_initial|constructor| |done].
    intros c Hc. by apply elem_of_nil in Hc.
  - rewrite run_events_snoc. simpl. by apply trace_wf_handle.
Qed.

(** X18. Over the whole life of a panel, whatever the order of the events:
    the host calls [abort] at most once on a controller, and only on the
    controller of a run it has started; the runs it starts get signals of
    their own, in the order in which they are started. *)
Theorem host_aborts_each_run_at_most_once evs :
  NoDup (aborts_of (Host.run_events Host.initial evs).2) ∧
  (∀ c, c ∈ aborts_of (Host.run_events Host.initial evs).2 →
        ∃ r, r ∈ starts_of (Host.run_events Host.initial evs).2 ∧ Host.run_signal r = c) ∧
  Host.run_signal <$> starts_of (Host.run_events Host.initial evs).2
  = seq 0 (length (starts_of (Host.run_events Host.initial evs).2)).
Proof.
  destruct (run_events_trace_wf evs) as (_ & Hnd & Hab & Hst).
  assert (length (starts_of (Host.run_events Host.initial evs).2)
          = length (Host.aborted (Host.run_events Host.initial evs).1)) as Hlen.
  { by rewrite <-(length_fmap Host.run_signal), Hst, length_seq. }
  split_and!; [done| |by rewrite Hlen].
  intros c Hc. specialize (Hab c Hc). apply lookup_lt_Some in Hab.
  assert (c ∈ Host.run_signal <$> starts_of (Host.run_events Host.initial evs).2) as Hin.
  { rewrite Hst. apply elem_of_seq. lia. }
  apply list_elem_of_fmap in Hin as (r & -> & Hr). by exists r.
Qed.

Lemma graphs_requested_app l1 l2 :
  graphs_requested (l1 ++ l2) = graphs_requested l1 ++ graphs_requested l2.
Proof. apply omap_app. Qed.

(** X19. Over any sequence of events, from any state of the host: the calls
    of [executeWorkflow] are the requests to run that carry a node list and
    an edge list, one call for each, in the order of arrival and each on the
    node list and edge list of its own message.  No request with a graph is
    dropped or merged with another, whatever runs are pending, and no other
    event starts a run. *)
Theorem runs_started_are_the_requests st evs :
  (λ r, (Host.run_nodes r, Host.run_edges r)) <$> starts_of (Host.run_events st evs).2
  = graphs_requested evs.
Proof.
  induction evs as [|ev evs IH] using rev_ind; [done|].
  rewrite run_events_snoc, graphs_requested_app. simpl.
  rewrite starts_of_app, fmap_app, IH. f_equal.
  destruct ev as [[d| |d|]|c|]; simpl; try done.
  - destruct (Host.payload d) as [[ns es]|]; done.
  - by destruct (Host.activeAbortController _).
  - by case_decide.
  - by destruct (Host.activeAbortController _).
Qed.

(** X20. The [finally] block of a run that settles clears the stored
    controller also when it belongs to a newer run.  From any state of the
    host: after two requests to run and the settling of the first, a request
    to stop has no effect, and the second run goes on with a signal that is
    not aborted. *)
Theorem settled_run_disarms_abort hst ns1 es1 ns2 es2 :
  (Host.run_events hst (overlapping_starts (length (Host.aborted hst)) ns1 ns2 es1 es2)).2
  = [Host.CallExecute {| Host.run_nodes := ns1; Host.run_edges := es1;
                         Host.run_signal := length (Host.aborted hst) |};
     Host.CallExecute {| Host.run_nodes := ns2; Host.run_edges := es2;
                         Host.run_signal := S (length (Host.aborted hst)) |}] ∧
  Host.activeAbortController
    (Host.run_events hst (overlapping_starts (length (Host.aborted hst)) ns1 ns2 es1 es2)).1
  = None ∧
  {| Host.run_nodes := ns2; Host.run_edges := es2;
     Host.run_signal := S (length (Host.aborted hst)) |}
  ∈ Host.live
      (Host.run_events hst (overlapping_starts (length (Host.aborted hst)) ns1 ns2 es1 es2)).1.
Proof.
  unfold overlapping_starts, Host.run_events. simpl.
  rewrite decide_True.
  2:{ rewrite !fmap_app, !elem_of_app. left. right. left. }
  simpl. rewrite length_app. simpl. rewrite Nat.add_1_r.
  split_and!; [done..|].
  unfold Host.live. simpl. apply list_elem_of_filter. simpl. split.
  - rewrite <-(assoc_L (++)). simpl.
    rewrite lookup_app_r by lia.
    by replace (S (length (Host.aborted hst)) - length (Host.aborted hst))%nat with 1%nat by lia.
  - apply list_elem_of_filter. split; [simpl; lia|].
    rewrite elem_of_app. right. left.
Qed.

(** ** The width of the sidebar *)

Lemma handleMouse_range st ev :
  200 ≤ Editor.sidebarWidth st ≤ 600 →
  200 ≤ Editor.sidebarWidth (Editor.handleMouse st ev) ≤ 600.
Proof.
  intros Hst. destruct ev as [x|x|]; simpl; [done| |done].
  destruct (Editor.isResizing st); simpl; lia.
Qed.

(** X21. Dragging the handle never takes the sidebar out of the range of
    200 to 600 pixels: from a width in the range, every sequence of mouse
    events leaves a width in the range. *)
Theorem sidebar_width_stays_in_range st evs :
  200 ≤ Editor.sidebarWidth st ≤ 600 →
  200 ≤ Editor.sidebarWidth (foldl Editor.handleMouse st evs) ≤ 600.
Proof.
  revert st. induction evs as [|ev evs IH]; intros st Hst; [done|].
  simpl. by apply IH, handleMouse_range.
Qed.

Lemma sidebar_width_stays_in_range_witness :
  200 ≤ Editor.sidebarWidth
          (foldl Editor.handleMouse Editor.initialResize
             [Editor.MouseDown 250; Editor.MouseMove 1000; Editor.MouseUp;
              Editor.MouseMove (-5)]) ≤ 600.
Proof.
  apply (sidebar_width_stays_in_range Editor.initialResize). simpl. lia.
Defined.

Lemma moves_keep_the_anchor xs : ∀ st,
  Editor.isResizing (foldl Editor.handleMouse st (Editor.MouseMove <$> xs))
  = Editor.isResizing st ∧
  Editor.startX (foldl Editor.handleMouse st (Editor.MouseMove <$> xs))
  = Editor.startX st ∧
  Editor.startWidth (foldl Editor.handleMouse st (Editor.MouseMove <$> xs))
  = Editor.startWidth st ∧
  (Editor.isResizing st = false →
   foldl Editor.handleMouse st (Editor.MouseMove <$> xs) = st).
Proof.
  induction xs as [|x xs IH]; intros st; [done|].
  rewrite fmap_cons. simpl.
  destruct (Editor.isResizing st) eqn:Hr.
  - destruct (IH {| Editor.sidebarWidth :=
                      Z.min (Z.max (Editor.startWidth st + (x - Editor.startX st)) 200) 600;
                    Editor.isResizing := true; Editor.startX := Editor.startX st;
                    Editor.startWidth := Editor.startWidth st |})
      as (-> & -> & -> & _). done.
  - destruct (IH st) as (-> & -> & -> & Hsame). rewrite Hr. split_and!; try done.
    intros _. by apply Hsame.
Qed.

(** X22. During a drag the width depends on where the pointer is, not on
    the way it took: after the button goes down at [x0] and the pointer
    moves along any path that ends at [x], the width is the width at the
    start of the drag plus [x - x0], brought into the range of 200 to 600;
    once the button is up, moving the pointer changes nothing. *)
Theorem drag_follows_the_pointer st x0 xs x :
  Editor.sidebarWidth
    (foldl Editor.handleMouse st
       (Editor.MouseDown x0 :: (Editor.MouseMove <$> xs) ++ [Editor.MouseMove x]))
  = Z.min (Z.max (Editor.sidebarWidth st + (x - x0)) 200) 600 ∧
  foldl Editor.handleMouse st (Editor.MouseUp :: (Editor.MouseMove <$> xs))
  = Editor.handleMouse st Editor.MouseUp.
Proof.
  split.
  - simpl. rewrite foldl_app. simpl.
    destruct (moves_keep_the_anchor xs
      {| Editor.sidebarWidth := Editor.sidebarWidth st; Editor.isResizing := true;
         Editor.startX := x0; Editor.startWidth := Editor.sidebarWidth st |})
      as (-> & -> & -> & _). done.
  - simpl. by apply moves_keep_the_anchor.
Qed.
